(** * tfidf-spider: term index, weight model, vectorizer and nearest-match search

    A shallow embedding of [spider.py] (class [Spider]) and [tfidf.py]
    (class [Tfidf]).

    Modelling conventions.
    - A Python [dict] is an association list in insertion order with unique
      keys ([Dict.wf]); [d[k] = v] updates in place or appends.
    - A Python [int] is a [Z]; a Python [float] and a numpy [float64] are
      idealised as real numbers [R] (no rounding, no overflow), [math.log] is
      [ln] on the positive reals and raises [ValueError] elsewhere.
    - A Python [str] is a [string]; [len] counts its characters.
    - An exception is the left injection of the result type [Py].
    - NLTK (tokenizer, stop lists, Snowball stemmers) is an external
      capability: the class [TextNormalizer].  Its calls are functions of
      their arguments.
    - The file system and the HTML parser behind [Spider.crawl] and
      [Spider.parse] are an external capability too: the class
      [FileSystem].  The field [content] of a spider holds crawled texts.
    - [print] has no effect on results and is not modelled. *)

From Stdlib Require Import String Ascii List ZArith Lia Bool.
From Stdlib Require Import Permutation Sorted Reals Lra.
Import ListNotations.

Set Implicit Arguments.

(** ** Exceptions *)

Inductive PyError : Type :=
| AttributeError
| IndexError
| KeyError
| OSError
| TypeError
| ValueError
| ZeroDivisionError
| Exception_ (msg : string).

Definition Py (A : Type) : Type := (PyError + A)%type.

Definition ret {A : Type} (a : A) : Py A := inr a.

Definition raise {A : Type} (e : PyError) : Py A := inl e.

Definition bind {A B : Type} (m : Py A) (k : A -> Py B) : Py B :=
  match m with
  | inl e => inl e
  | inr a => k a
  end.

Notation "x <- m ;; k" := (bind m (fun x => k))
  (at level 61, m at next level, right associativity).

(** A [for] loop whose body may raise: the state is threaded left to right
    and the first exception ends the loop. *)
Fixpoint foldM {A S : Type} (body : S -> A -> Py S) (l : list A) (s : S)
  : Py S :=
  match l with
  | [] => ret s
  | x :: l' => s' <- body s x ;; foldM body l' s'
  end.

Definition of_option {A : Type} (e : PyError) (o : option A) : Py A :=
  match o with
  | Some a => ret a
  | None => raise e
  end.

(** ** Dictionaries *)

Definition dict (V : Type) : Type := list (string * V).

Module Dict.

Section Ops.
Context {V : Type}.
Implicit Type d : dict V.

Fixpoint get (d : dict V) (k : string) : option V :=
  match d with
  | [] => None
  | (k', v) :: d' => if String.eqb k' k then Some v else get d' k
  end.

Definition mem (k : string) (d : dict V) : bool :=
  match get d k with
  | Some _ => true
  | None => false
  end.

(** [d[k] = v] *)
Fixpoint set (d : dict V) (k : string) (v : V) : dict V :=
  match d with
  | [] => [(k, v)]
  | (k', v') :: d' =>
      if String.eqb k' k then (k', v) :: d' else (k', v') :: set d' k v
  end.

Definition keys (d : dict V) : list string := map fst d.

Definition values (d : dict V) : list V := map snd d.

Definition items (d : dict V) : list (string * V) := d.

(** [{k: v for k, v in l}] *)
Definition of_items (l : list (string * V)) : dict V :=
  fold_left (fun d kv => set d (fst kv) (snd kv)) l [].

(** [d.update(d')] *)
Definition update (d d' : dict V) : dict V :=
  fold_left (fun d kv => set d (fst kv) (snd kv)) d' d.

Definition wf (d : dict V) : Prop := NoDup (keys d).

End Ops.

End Dict.

(** [sum(d.values())] *)
Definition sum_values (d : dict Z) : Z :=
  fold_left Z.add (Dict.values d) 0%Z.

(** The same sum, written as a right fold *)
Definition total (l : list Z) : Z := fold_right Z.add 0%Z l.

(** [sorted(items, key=lambda x: x[1], reverse=True)]: a stable sort, so
    entries of equal count keep their order. *)
Fixpoint insert_desc (x : string * Z) (l : list (string * Z))
  : list (string * Z) :=
  match l with
  | [] => [x]
  | y :: l' =>
      if (snd x <? snd y)%Z then y :: insert_desc x l' else x :: y :: l'
  end.

Definition sorted_desc (l : list (string * Z)) : list (string * Z) :=
  fold_right insert_desc [] l.

(** ** The external text normalizer (NLTK) *)

Inductive Stemmer : Type :=
| GermanStemmer
| EnglishStemmer.

Class TextNormalizer : Type := {
  (** [word_tokenize(text, language=...)] *)
  word_tokenize : string -> string -> list string;
  (** [stopwords.words(language)]; [None] when NLTK has no such stop list *)
  stopwords_words : string -> option (list string);
  (** [stemmer.stem(token)] *)
  stem : Stemmer -> string -> string
}.

(** [x in l] for a list of strings *)
Definition str_in (x : string) (l : list string) : bool :=
  existsb (String.eqb x) l.

(** ** spider.py *)

Record Spider : Type := mkSpider {
  corpus : string;
  file_type : string;
  content : dict string;
  term_index : dict Z;
  stopwords : list string;
  language : string;
  stemmer : option Stemmer
}.

Definition set_term_index (self : Spider) (ti : dict Z) : Spider :=
  {| corpus := corpus self;
     file_type := file_type self;
     content := content self;
     term_index := ti;
     stopwords := stopwords self;
     language := language self;
     stemmer := stemmer self |}.

Section SpiderOps.
Context {N : TextNormalizer}.

(** [Spider.__init__].  On a language that is neither 'german' nor
    'english' the source builds an [Exception] object and drops it: no
    [stemmer] attribute is set and construction succeeds. *)
Definition Spider_init (corpus file_type language : string) : Py Spider :=
  sw <- of_option OSError (stopwords_words language) ;;
  ret {| corpus := corpus;
         file_type := file_type;
         content := [];
         term_index := [];
         stopwords := sw;
         language := language;
         stemmer :=
           if String.eqb language "german" then Some GermanStemmer
           else if String.eqb language "english" then Some EnglishStemmer
           else None |}.

(** The test of the loop body of [add_new_token] *)
Definition survives (sw : list string) (token : string) : bool :=
  (1 <? String.length token)%nat && negb (str_in token sw).

(** One iteration of the loop of [add_new_token] on the table *)
Definition add_token (sw : list string) (st : option Stemmer)
    (count_value : Z) (ti : dict Z) (token : string) : Py (dict Z) :=
  if survives sw token then
    s <- of_option AttributeError st ;;
    let token := stem s token in
    match Dict.get ti token with
    | None => ret (Dict.set ti token 1%Z)
    | Some c => ret (Dict.set ti token (c + count_value)%Z)
    end
  else ret ti.

(** [Spider.add_new_token] *)
Definition add_new_token (self : Spider) (content : string)
    (count_value : Z) : Py Spider :=
  let tokens := word_tokenize content (language self) in
  ti <- foldM (add_token (stopwords self) (stemmer self) count_value)
          tokens (term_index self) ;;
  ret (set_term_index self ti).

(** [Spider.clear_index]: the attribute is rebound to a new empty dict;
    a dict obtained earlier from [get_index_dictionary] is not touched. *)
Definition clear_index (self : Spider) : Spider :=
  set_term_index self [].

(** [Spider.generate_term_index] *)
Definition generate_term_index (self : Spider)
    (additional_terms : option (list string)) : Py Spider :=
  let self := clear_index self in
  self <- foldM (fun self kv => add_new_token self (snd kv) 1%Z)
            (Dict.items (content self)) self ;;
  match additional_terms with
  | None => ret self
  | Some terms =>
      foldM (fun self term => add_new_token self term 0%Z) terms self
  end.

(** [Spider.get_index_dictionary] *)
Definition get_index_dictionary (self : Spider) (sort : bool) : dict Z :=
  if sort then Dict.of_items (sorted_desc (Dict.items (term_index self)))
  else term_index self.

(** [Spider.get_index_list] *)
Definition get_index_list (self : Spider) (sort : bool)
  : list (Z * string) :=
  map (fun kv => (snd kv, fst kv))
    (Dict.items (get_index_dictionary self sort)).

End SpiderOps.

(** ** Numbers: Python [int] division, [math.log] and numpy vectors *)

(** [a / b] on two ints: true division *)
Definition py_truediv (a b : Z) : Py R :=
  if (b =? 0)%Z then raise ZeroDivisionError else ret (IZR a / IZR b)%R.

(** [math.log(x)] *)
Definition math_log (x : R) : Py R :=
  if Rlt_dec 0 x then ret (ln x) else raise ValueError.

(** [np.zeros(n)] *)
Definition np_zeros (n : nat) : list R := repeat 0%R n.

(** [v[i] = x] on a numpy vector *)
Fixpoint np_setitem (v : list R) (i : nat) (x : R) : Py (list R) :=
  match v, i with
  | [], _ => raise IndexError
  | _ :: v', O => ret (x :: v')
  | y :: v', S i' => v'' <- np_setitem v' i' x ;; ret (y :: v'')
  end.

(** [u - v] on numpy vectors: elementwise on equal lengths, a vector of
    length one is broadcast, any other pair of lengths is a [ValueError]. *)
Definition np_sub (u v : list R) : Py (list R) :=
  if (length u =? length v)%nat then
    ret (map (fun p => (fst p - snd p)%R) (combine u v))
  else if (length u =? 1)%nat then
    ret (map (fun y => (hd 0%R u - y)%R) v)
  else if (length v =? 1)%nat then
    ret (map (fun x => (x - hd 0%R v)%R) u)
  else raise ValueError.

(** [np.linalg.norm(v)]: the Euclidean norm *)
Definition np_linalg_norm (v : list R) : R :=
  sqrt (fold_right (fun x acc => (x * x + acc)%R) 0%R v).

(** [l.index(x)] *)
Fixpoint list_index (l : list string) (x : string) : Py nat :=
  match l with
  | [] => raise ValueError
  | y :: l' =>
      if String.eqb y x then ret O
      else i <- list_index l' x ;; ret (S i)
  end.

(** ** tfidf.py *)

Record Tfidf : Type := mkTfidf {
  spider : Spider;
  idf : dict R;
  indexed_documents : dict (list R);
  word_vector : list string
}.

Definition no_document_found : string := "no document found".

Section TfidfOps.
Context {N : TextNormalizer}.

(** One iteration of the loop of [init_term_frequency] *)
Definition idf_step (term_index : dict Z) (total_count : Z)
    (idf : dict R) (word : string) : Py (dict R) :=
  c <- of_option KeyError (Dict.get term_index word) ;;
  q <- py_truediv total_count c ;;
  w <- math_log q ;;
  ret (Dict.set idf word w).

(** [Tfidf.init_term_frequency] *)
Definition init_term_frequency (self : Tfidf) : Py Tfidf :=
  let term_index := get_index_dictionary (spider self) true in
  let total_count := sum_values term_index in
  let word_vector := Dict.keys term_index in
  idf <- foldM (idf_step term_index total_count) word_vector (idf self) ;;
  ret {| spider := spider self;
         idf := idf;
         indexed_documents := indexed_documents self;
         word_vector := word_vector |}.

(** One iteration of the loop of [create_word_vector] *)
Definition vector_step (self : Tfidf) (term_index : dict Z) (len_tokens : Z)
    (document_word_vector : list R) (token : string) : Py (list R) :=
  if str_in token (word_vector self) then
    position <- list_index (word_vector self) token ;;
    w <- of_option KeyError (Dict.get (idf self) token) ;;
    c <- of_option KeyError (Dict.get term_index token) ;;
    rate <- py_truediv c len_tokens ;;
    np_setitem document_word_vector position (w * rate)%R
  else ret document_word_vector.

(** [Tfidf.create_word_vector].  [term_index] is the dict the new spider
    filled; [clear_index] rebinds the spider's attribute afterwards and
    leaves that dict as it is. *)
Definition create_word_vector (self : Tfidf) (text : string)
  : Py (list R) :=
  new_spider <- Spider_init "data" "txt" (language (spider self)) ;;
  new_spider <- add_new_token new_spider text 1%Z ;;
  let term_index := get_index_dictionary new_spider false in
  let len_tokens := sum_values term_index in
  let new_spider := clear_index new_spider in
  let document_word_vector := np_zeros (length (word_vector self)) in
  foldM (vector_step self term_index len_tokens)
    (Dict.keys term_index) document_word_vector.

(** [Tfidf.insert_documents]; [content] is [None] when the caller passed
    no mapping. *)
Definition insert_documents (self : Tfidf) (content : option (dict string))
  : Py Tfidf :=
  items <- of_option AttributeError content ;;
  foldM (fun self kv =>
           document_word_vector <- create_word_vector self (snd kv) ;;
           ret {| spider := spider self;
                  idf := idf self;
                  indexed_documents :=
                    Dict.set (indexed_documents self) (fst kv)
                      document_word_vector;
                  word_vector := word_vector self |})
    items self.

(** [Tfidf.__init__] *)
Definition Tfidf_init (spider : Spider) (index_documents : string)
    (new_documents : option (dict string)) : Py Tfidf :=
  let self := {| spider := spider;
                 idf := [];
                 indexed_documents := [];
                 word_vector := [] |} in
  self <- init_term_frequency self ;;
  content <-
    (if String.eqb index_documents "same" then
       ret (Some (content spider))
     else if String.eqb index_documents "new" then
       ret new_documents
     else if String.eqb index_documents "add" then
       match new_documents with
       | Some d => ret (Some (Dict.update (content spider) d))
       | None => raise TypeError
       end
     else
       raise (Exception_
                ("Unknown input for index_documents:" ++ index_documents
                 ++ "."))) ;;
  insert_documents self content.

(** [Tfidf.get_idf_for_token] *)
Definition get_idf_for_token (self : Tfidf) (token : string) : Py R :=
  of_option KeyError (Dict.get (idf self) token).

(** [Tfidf.get_token_for_vector]: [compress(self.word_vector, v > 0)] *)
Definition get_token_for_vector (self : Tfidf) (v : list R) : list string :=
  map fst
    (filter (fun p => if Rlt_dec 0 (snd p) then true else false)
       (combine (word_vector self) v)).

(** One iteration of the scan of [search]: the pair is
    [(best_match_document, best_match_distance)]. *)
Definition search_step (search_text_vector : list R) (best : string * R)
    (kv : string * list R) : Py (string * R) :=
  diff <- np_sub (snd kv) search_text_vector ;;
  let distance := np_linalg_norm diff in
  if Rlt_dec distance (snd best) then ret (fst kv, distance)
  else ret best.

(** The scan of [search], with the distance it ends on *)
Definition search_scan (self : Tfidf) (search_text : string)
  : Py (string * R) :=
  search_text_vector <- create_word_vector self search_text ;;
  foldM (search_step search_text_vector)
    (Dict.items (indexed_documents self)) (no_document_found, 100%R).

(** [Tfidf.search] *)
Definition search (self : Tfidf) (search_text : string) (verbose : bool)
  : Py string :=
  best <- search_scan self search_text ;;
  ret (fst best).

End TfidfOps.

(** ** Notions used to state the properties *)

(** The terms the loop of [add_new_token] folds into the table for a token
    sequence: the stems of the tokens that pass its test, in order.  Without
    a stemmer no token can be folded. *)
Definition folded {N : TextNormalizer} (sw : list string)
    (st : option Stemmer) (tokens : list string) : list string :=
  match st with
  | Some s => map (stem s) (filter (survives sw) tokens)
  | None => []
  end.

(** The terms [self.add_new_token(content, ...)] folds into the table *)
Definition folded_terms {N : TextNormalizer} (self : Spider)
    (content : string) : list string :=
  folded (stopwords self) (stemmer self)
    (word_tokenize content (language self)).

(** Every count of the table is at least [b]. *)
Definition counts_at_least (b : Z) (ti : dict Z) : Prop :=
  forall k c, Dict.get ti k = Some c -> (b <= c)%Z.

(** A language for which [Spider.__init__] sets a stemmer and NLTK has a
    stop list *)
Definition supported {N : TextNormalizer} (language : string) : Prop :=
  (language = "german" \/ language = "english")%string /\
  stopwords_words language <> None.

(** The same bound, as a test *)
Definition counts_at_leastb (b : Z) (ti : dict Z) : bool :=
  forallb (fun kv => (b <=? snd kv)%Z) ti.

(** [Dict.wf], as a test *)
Fixpoint wfb {V : Type} (d : dict V) : bool :=
  match d with
  | [] => true
  | (k, _) :: d' => negb (str_in k (Dict.keys d')) && wfb d'
  end.

(** Two spiders that differ at most in their term index *)
Definition same_setup (a b : Spider) : Prop :=
  stopwords a = stopwords b /\ stemmer a = stemmer b /\
  language a = language b /\ content a = content b.

(** Every word of the vocabulary has a weight. *)
Definition weights_cover (self : Tfidf) : Prop :=
  forall w, In w (word_vector self) -> Dict.get (idf self) w <> None.

(** The weight [init_term_frequency] stores for [w], when it stores one *)
Definition weight_of (term_index : dict Z) (total_count : Z) (w : string)
  : R :=
  match Dict.get term_index w with
  | Some c => ln (IZR total_count / IZR c)
  | None => 0
  end.

(** ** A small stand-in for NLTK, used to run the code on concrete inputs *)

Module Toy.

Local Open Scope string_scope.

(** Tokens are the maximal runs of characters other than the space. *)
Fixpoint words_from (cur s : string) : list string :=
  match s with
  | EmptyString => if String.eqb cur "" then [] else [cur]
  | String c s' =>
      if Ascii.eqb c " "%char then
        if String.eqb cur "" then words_from "" s'
        else cur :: words_from "" s'
      else words_from (cur ++ String c "") s'
  end.

Definition toy_stopwords (language : string) : option (list string) :=
  if String.eqb language "german" then Some ["der"; "die"; "das"; "und"]
  else if String.eqb language "english" then Some ["the"; "and"; "of"]
  else if String.eqb language "french" then Some ["le"; "la"; "et"]
  else None.

#[export] Instance normalizer : TextNormalizer := {
  word_tokenize := fun text _ => words_from "" text;
  stopwords_words := toy_stopwords;
  stem := fun _ token => token
}.

(** A crawled corpus of two documents *)
Definition corpus_spider : Spider :=
  {| corpus := "data";
     file_type := "txt";
     content := [("doc1", "the cat sat and the cat ran");
                 ("doc2", "the dog ran")];
     term_index := [];
     stopwords := ["the"; "and"; "of"];
     language := "english";
     stemmer := Some EnglishStemmer |}.

Definition seeds : list string := ["cat"; "gpu"; "gpu card"].

(** The corpus after [generate_term_index(seeds)] *)
Definition indexed_spider : Spider :=
  set_term_index corpus_spider
    [("cat", 2%Z); ("sat", 1%Z); ("ran", 2%Z); ("dog", 1%Z);
     ("gpu", 1%Z); ("card", 1%Z)].

(** The attributes of a [Tfidf] before [init_term_frequency] *)
Definition fresh (sp : Spider) : Tfidf :=
  {| spider := sp; idf := []; indexed_documents := []; word_vector := [] |}.

(** [Tfidf(spider=indexed_spider)] *)
Definition indexed_tfidf : Tfidf :=
  {| spider := indexed_spider;
     idf := [("cat", ln (8 / 2)); ("ran", ln (8 / 2)); ("sat", ln (8 / 1));
             ("dog", ln (8 / 1)); ("gpu", ln (8 / 1));
             ("card", ln (8 / 1))]%R;
     indexed_documents :=
       [("doc1", [ln (8 / 2) * (2 / 4); ln (8 / 2) * (1 / 4);
                  ln (8 / 1) * (1 / 4); 0; 0; 0]);
        ("doc2", [0; ln (8 / 2) * (1 / 2); 0; ln (8 / 1) * (1 / 2);
                  0; 0])]%R;
     word_vector := ["cat"; "ran"; "sat"; "dog"; "gpu"; "card"] |}.

(** [Spider(language='english')] *)
Definition empty_spider : Spider :=
  {| corpus := "data";
     file_type := "txt";
     content := [];
     term_index := [];
     stopwords := ["the"; "and"; "of"];
     language := "english";
     stemmer := Some EnglishStemmer |}.

(** The empty spider after [add_new_token('aa bb aa')] and
    [add_new_token('bb', count_value=-1)] *)
Definition zero_spider : Spider :=
  set_term_index empty_spider [("aa", 2%Z); ("bb", 0%Z)].

(** A spider whose table a caller filled through [add_new_token]:
    [add_new_token('aa')], [add_new_token('aa', count_value=10**50 - 1)],
    [add_new_token('bb')]. *)
Definition far_spider : Spider :=
  {| corpus := "data";
     file_type := "txt";
     content := [];
     term_index := [("aa", (10 ^ 50)%Z); ("bb", 1%Z)];
     stopwords := ["the"; "and"; "of"];
     language := "english";
     stemmer := Some EnglishStemmer |}.

(** [Tfidf(far_spider, index_documents='new', new_documents={'doc': 'bb'})] *)
Definition far_tfidf : Tfidf :=
  {| spider := far_spider;
     idf := [("aa", ln (IZR (10 ^ 50 + 1) / IZR (10 ^ 50)));
             ("bb", ln (IZR (10 ^ 50 + 1) / 1))]%R;
     indexed_documents :=
       [("doc", [0; ln (IZR (10 ^ 50 + 1) / 1) * (1 / 1)])]%R;
     word_vector := ["aa"; "bb"] |}.

End Toy.

(** ** The rest of spider.py: crawling and parsing *)

(** The file system and the HTML parser (os, open, BeautifulSoup) are an
    external capability as well. *)
Class FileSystem : Type := {
  (** [os.walk(top)]: the [(root, dirs, files)] triples in walk order *)
  os_walk : string -> list (string * list string * list string);
  (** [os.path.join(root, file)] *)
  os_path_join : string -> string -> string;
  (** [open(path, 'r', encoding='utf-8').read()]; [None] when it raises *)
  read_text : string -> option string;
  (** The [.text] of each element of
      [BeautifulSoup(data, 'html.parser').find_all('p')]; [None] when the
      parser raises *)
  find_all_p : string -> option (list (option string))
}.

(** [s.endswith(suffix)] *)
Definition str_endswith (s suffix : string) : bool :=
  (String.length suffix <=? String.length s)%nat &&
  String.eqb
    (String.substring (String.length s - String.length suffix)
       (String.length suffix) s)
    suffix.

(** A loop body either goes on or executes [return]. *)
Inductive Flow (S : Type) : Type :=
| Continue (s : S)
| Return (s : S).

Arguments Continue {S} s.
Arguments Return {S} s.

Definition flow_state {S : Type} (f : Flow S) : S :=
  match f with
  | Continue s => s
  | Return s => s
  end.

(** A [for] loop whose body may [return] from the enclosing function *)
Fixpoint for_each {A S : Type} (body : S -> A -> Flow S) (l : list A)
    (s : S) : Flow S :=
  match l with
  | [] => Continue s
  | x :: l' =>
      match body s x with
      | Continue s' => for_each body l' s'
      | Return s' => Return s'
      end
  end.

Section Crawl.
Context {F : FileSystem}.

(** [Spider.parse]: the text of the file, [None] after the [except] branch
    (which prints and falls off the end of the function). *)
Definition parse (self : Spider) (file_path : string) : option string :=
  match read_text file_path with
  | None => None
  | Some data =>
      if String.eqb (file_type self) "html" then
        match find_all_p data with
        | None => None
        | Some paragraphs =>
            Some (fold_left
                    (fun content p =>
                       match p with
                       | Some text =>
                           if (0 <? String.length text)%nat
                           then (content ++ text)%string
                           else content
                       | None => content
                       end)
                    paragraphs ""%string)
        end
      else Some data
  end.

(** The body of the inner loop of [crawl]; the state is the mapping
    [self.content], whose values are what [parse] returned, and [counter]. *)
Definition crawl_file (self : Spider) (limit : option Z) (root : string)
    (st : dict (option string) * Z) (file : string)
  : Flow (dict (option string) * Z) :=
  if str_endswith file ("." ++ file_type self)%string then
    let file_path := os_path_join root file in
    let content := Dict.set (fst st) file_path (parse self file_path) in
    let counter := (snd st + 1)%Z in
    match limit with
    | Some n =>
        if (n <=? counter)%Z then Return (content, counter)
        else Continue (content, counter)
    | None => Continue (content, counter)
    end
  else Continue st.

(** [Spider.crawl], as the mapping it leaves in [self.content] when it
    starts from the mapping [content] *)
Definition crawl (self : Spider) (limit : option Z)
    (content : dict (option string)) : dict (option string) :=
  fst (flow_state
         (for_each
            (fun st triple =>
               for_each (crawl_file self limit (fst (fst triple)))
                 (snd triple) st)
            (os_walk (corpus self)) (content, 0%Z))).

End Crawl.

(** What the body of the inner loop of [crawl] does with the path of a
    file of the wanted type *)
Definition crawl_path {F : FileSystem} (self : Spider) (limit : option Z)
    (st : dict (option string) * Z) (file_path : string)
  : Flow (dict (option string) * Z) :=
  let content := Dict.set (fst st) file_path (parse self file_path) in
  let counter := (snd st + 1)%Z in
  match limit with
  | Some n =>
      if (n <=? counter)%Z then Return (content, counter)
      else Continue (content, counter)
  | None => Continue (content, counter)
  end.

(** The paths of the files of the wanted type under the corpus folder, in
    walk order *)
Definition wanted_paths {F : FileSystem} (self : Spider) : list string :=
  flat_map
    (fun triple =>
       map (os_path_join (fst (fst triple)))
         (filter (fun file =>
                    str_endswith file ("." ++ file_type self)%string)
            (snd triple)))
    (os_walk (corpus self)).

(** The texts of the paragraphs that have one *)
Definition paragraph_texts (paragraphs : list (option string))
  : list string :=
  flat_map (fun p => match p with Some text => [text] | None => [] end)
    paragraphs.

(** A small file system to run [crawl] on: a folder with three text files,
    one of them unreadable, and a page. *)
Module ToyFS.

Local Open Scope string_scope.

#[export] Instance files : FileSystem := {
  os_walk := fun top =>
    if String.eqb top "data" then
      [("data", ["sub"], ["a.txt"; "b.html"; "c.txt"]);
       ("data/sub", [], ["d.txt"])]
    else [];
  os_path_join := fun root file => root ++ "/" ++ file;
  read_text := fun path =>
    if String.eqb path "data/a.txt" then Some "the cat sat"
    else if String.eqb path "data/sub/d.txt" then Some "the dog ran"
    else if String.eqb path "data/b.html" then Some "<p>the cat</p><p></p>"
    else None;
  find_all_p := fun data =>
    if String.eqb data "<p>the cat</p><p></p>"
    then Some [Some "the cat"; Some ""]
    else Some []
}.

End ToyFS.

(** ** The rest of tfidf.py: the summary string *)

(** [s[:-2]] *)
Definition drop_last_two (s : string) : string :=
  String.substring 0 (String.length s - 2) s.

(** [Tfidf.__str__] *)
Definition Tfidf_str (self : Tfidf) : string :=
  drop_last_two
    (fold_left (fun document_names document_name =>
                  (document_names ++ document_name ++ ", ")%string)
       (Dict.keys (indexed_documents self)) ""%string).

(** ** Further notions used to state properties *)

(** How often [k] occurs in [l] *)
Definition occurrences (k : string) (l : list string) : Z :=
  Z.of_nat (count_occ string_dec l k).

(** The distance [search] computes between a stored vector and a query
    vector of the same length *)
Definition euclidean (v q : list R) : R :=
  np_linalg_norm (map (fun p => (fst p - snd p)%R) (combine v q)).


(** The count [add_new_token] leaves for a term that was bound to [before]
    and is folded [n] times with increment [cv] *)
Definition count_after (cv : Z) (before : option Z) (n : Z) : option Z :=
  match before with
  | Some c => Some (c + cv * n)%Z
  | None => if (n =? 0)%Z then None else Some (1 + cv * (n - 1))%Z
  end.

(** ** Lemmas on the error monad *)

Lemma bind_inr : forall (A B : Type) (m : Py A) (k : A -> Py B) (b : B),
  bind m k = inr b -> exists a, m = inr a /\ k a = inr b.
Proof.
  intros A B [e | a] k b H; simpl in H.
  - discriminate.
  - exists a. split; [reflexivity | assumption].
Qed.

Lemma foldM_app : forall (A S : Type) (body : S -> A -> Py S)
    (l1 l2 : list A) (s : S),
  foldM body (l1 ++ l2) s = (s' <- foldM body l1 s ;; foldM body l2 s').
Proof.
  induction l1 as [| x l1 IH]; intros l2 s; simpl.
  - reflexivity.
  - destruct (body s x) as [e | s1]; simpl; [reflexivity | apply IH].
Qed.

(** A loop whose body never raises is a plain left fold. *)
Lemma foldM_pure : forall (A S : Type) (body : S -> A -> Py S)
    (f : S -> A -> S) (l : list A) (s : S),
  (forall s x, In x l -> body s x = inr (f s x)) ->
  foldM body l s = inr (fold_left f l s).
Proof.
  induction l as [| x l IH]; intros s H; simpl.
  - reflexivity.
  - rewrite (H s x (or_introl eq_refl)). simpl.
    apply IH. intros s' y Hy. apply H. right. assumption.
Qed.

(** A loop invariant that every successful iteration keeps. *)
Lemma foldM_invariant : forall (A S : Type) (body : S -> A -> Py S)
    (P : S -> Prop) (l : list A) (s s' : S),
  (forall s x s', In x l -> P s -> body s x = inr s' -> P s') ->
  P s -> foldM body l s = inr s' -> P s'.
Proof.
  induction l as [| x l IH]; intros s s' Hstep Hs H; simpl in H.
  - injection H as <-. assumption.
  - apply bind_inr in H. destruct H as (s1 & H1 & H2).
    apply (IH s1 s'); try assumption.
    + intros s2 y s3 Hy. apply Hstep. right. assumption.
    + apply (Hstep s x s1); [left; reflexivity | assumption | assumption].
Qed.

(** ** Lemmas on dictionaries *)

Section DictLemmas.
Context {V : Type}.
Implicit Types (d : dict V) (k : string) (v : V).

Lemma get_set : forall d k v k',
  Dict.get (Dict.set d k v) k' =
  if String.eqb k k' then Some v else Dict.get d k'.
Proof.
  induction d as [| [k0 v0] d IH]; intros k v k'; simpl.
  - reflexivity.
  - destruct (String.eqb_spec k0 k) as [-> | Hne]; simpl.
    + destruct (String.eqb k k'); reflexivity.
    + rewrite IH.
      destruct (String.eqb_spec k0 k') as [-> | Hne'].
      * destruct (String.eqb_spec k k') as [-> | _]; congruence.
      * reflexivity.
Qed.

Lemma get_set_same : forall d k v, Dict.get (Dict.set d k v) k = Some v.
Proof. intros. rewrite get_set, String.eqb_refl. reflexivity. Qed.

Lemma get_set_other : forall d k v k',
  k <> k' -> Dict.get (Dict.set d k v) k' = Dict.get d k'.
Proof.
  intros d k v k' H. rewrite get_set.
  destruct (String.eqb_spec k k'); [contradiction | reflexivity].
Qed.

Lemma get_none_keys : forall d k,
  Dict.get d k = None <-> ~ In k (Dict.keys d).
Proof.
  induction d as [| [k0 v0] d IH]; intros k; simpl.
  - tauto.
  - destruct (String.eqb_spec k0 k) as [-> | Hne].
    + split; [discriminate | intros H; exfalso; apply H; left; reflexivity].
    + rewrite IH. tauto.
Qed.

Lemma get_some_in : forall d k v, Dict.get d k = Some v -> In (k, v) d.
Proof.
  induction d as [| [k0 v0] d IH]; intros k v; simpl.
  - discriminate.
  - destruct (String.eqb_spec k0 k) as [-> | Hne].
    + intros [= ->]. left. reflexivity.
    + intros H. right. apply IH. assumption.
Qed.

Lemma in_get_some : forall d k v,
  Dict.wf d -> In (k, v) d -> Dict.get d k = Some v.
Proof.
  induction d as [| [k0 v0] d IH]; intros k v Hwf Hin; simpl in *.
  - contradiction.
  - inversion Hwf as [| ? ? Hnotin Hwf']; subst.
    destruct Hin as [[= -> ->] | Hin].
    + rewrite String.eqb_refl. reflexivity.
    + destruct (String.eqb_spec k0 k) as [-> | Hne].
      * exfalso. apply Hnotin. apply (in_map fst) in Hin. exact Hin.
      * apply IH; assumption.
Qed.

Lemma keys_in_get : forall d k,
  In k (Dict.keys d) -> exists v, Dict.get d k = Some v.
Proof.
  intros d k H. destruct (Dict.get d k) as [v |] eqn:E.
  - exists v. reflexivity.
  - apply get_none_keys in E. contradiction.
Qed.

Lemma get_keys_in : forall d k v,
  Dict.get d k = Some v -> In k (Dict.keys d).
Proof.
  intros d k v H. apply get_some_in in H.
  apply (in_map fst) in H. exact H.
Qed.

Lemma set_absent : forall d k v,
  ~ In k (Dict.keys d) -> Dict.set d k v = d ++ [(k, v)].
Proof.
  induction d as [| [k0 v0] d IH]; intros k v H; simpl in *.
  - reflexivity.
  - destruct (String.eqb_spec k0 k) as [-> | Hne].
    + exfalso. apply H. left. reflexivity.
    + rewrite IH; [reflexivity | tauto].
Qed.

Lemma keys_set_present : forall d k v,
  In k (Dict.keys d) -> Dict.keys (Dict.set d k v) = Dict.keys d.
Proof.
  induction d as [| [k0 v0] d IH]; intros k v H; simpl in *.
  - contradiction.
  - destruct (String.eqb_spec k0 k) as [-> | Hne]; simpl.
    + reflexivity.
    + f_equal. apply IH. destruct H; [contradiction | assumption].
Qed.

Lemma wf_set : forall d k v, Dict.wf d -> Dict.wf (Dict.set d k v).
Proof.
  intros d k v Hwf. unfold Dict.wf in *.
  destruct (in_dec string_dec k (Dict.keys d)) as [Hin | Hnotin].
  - rewrite keys_set_present; assumption.
  - rewrite set_absent by assumption.
    unfold Dict.keys. rewrite map_app. simpl.
    apply NoDup_app; [assumption | repeat constructor; simpl; tauto |].
    intros x Hx [<- | []]. contradiction.
Qed.

(** Rebuilding a dict from its own item sequence gives it back. *)
Lemma fold_set_fresh : forall (l acc : list (string * V)),
  NoDup (map fst (acc ++ l)) ->
  fold_left (fun d kv => Dict.set d (fst kv) (snd kv)) l acc = acc ++ l.
Proof.
  induction l as [| [k v] l IH]; intros acc H; simpl.
  - rewrite app_nil_r. reflexivity.
  - assert (Hk : ~ In k (Dict.keys acc)).
    { rewrite map_app in H. simpl in H.
      apply NoDup_remove_2 in H. intros Hin. apply H.
      apply in_or_app. left. exact Hin. }
    rewrite set_absent by assumption.
    rewrite IH; rewrite <- app_assoc; simpl; [reflexivity | assumption].
Qed.

Lemma of_items_wf : forall d, Dict.wf d -> Dict.of_items (Dict.items d) = d.
Proof.
  intros d H. unfold Dict.of_items, Dict.items.
  rewrite fold_set_fresh; [reflexivity | exact H].
Qed.

End DictLemmas.

(** ** Lemmas on sums and on the sort *)

Lemma fold_left_add_total : forall (l : list Z) (a : Z),
  fold_left Z.add l a = (a + total l)%Z.
Proof.
  induction l as [| x l IH]; intros a; simpl.
  - lia.
  - rewrite IH. lia.
Qed.

Lemma sum_values_total : forall d : dict Z,
  sum_values d = total (Dict.values d).
Proof. intros d. unfold sum_values. rewrite fold_left_add_total. lia. Qed.

Lemma total_perm : forall l l' : list Z,
  Permutation l l' -> total l = total l'.
Proof. induction 1; simpl; lia. Qed.

Lemma total_lower : forall (l : list Z) (b : Z),
  (forall x, In x l -> (b <= x)%Z) -> (0 <= b)%Z ->
  forall x, In x l -> (x <= total l)%Z /\ (0 <= total l)%Z.
Proof.
  induction l as [| y l IH]; intros b Hall Hb x Hin; simpl in *.
  - contradiction.
  - assert (Hy : (b <= y)%Z) by (apply Hall; left; reflexivity).
    assert (Hl : (0 <= total l)%Z).
    { destruct l as [| z l']; simpl; [lia |].
      apply (IH b) with (x := z); [| assumption | left; reflexivity].
      intros w Hw. apply Hall. right. exact Hw. }
    destruct Hin as [-> | Hin].
    + lia.
    + destruct (IH b) with (x := x) as [Hx _]; try assumption.
      * intros w Hw. apply Hall. right. exact Hw.
      * lia.
Qed.

Lemma insert_desc_perm : forall x l, Permutation (insert_desc x l) (x :: l).
Proof.
  induction l as [| y l IH]; simpl.
  - apply Permutation_refl.
  - destruct (snd x <? snd y)%Z.
    + apply Permutation_trans with (y :: x :: l).
      * apply perm_skip. exact IH.
      * apply perm_swap.
    + apply Permutation_refl.
Qed.

Lemma sorted_desc_perm : forall l, Permutation (sorted_desc l) l.
Proof.
  induction l as [| x l IH]; simpl.
  - apply perm_nil.
  - apply Permutation_trans with (x :: sorted_desc l).
    + apply insert_desc_perm.
    + apply perm_skip. exact IH.
Qed.

Lemma wf_perm : forall d d' : dict Z,
  Permutation d d' -> Dict.wf d -> Dict.wf d'.
Proof.
  intros d d' Hp Hwf. unfold Dict.wf, Dict.keys in *.
  apply (Permutation_NoDup (l := map fst d)); [| assumption].
  apply Permutation_map. assumption.
Qed.

Lemma get_perm : forall (d d' : dict Z) (k : string),
  Permutation d d' -> Dict.wf d -> Dict.get d' k = Dict.get d k.
Proof.
  intros d d' k Hp Hwf.
  assert (Hwf' : Dict.wf d') by (apply (wf_perm Hp Hwf)).
  destruct (Dict.get d k) as [v |] eqn:E.
  - apply in_get_some; [assumption |].
    apply (Permutation_in _ Hp). apply get_some_in. assumption.
  - apply get_none_keys. apply get_none_keys in E.
    intros Hin. apply E. unfold Dict.keys in *.
    apply (Permutation_in (l := map fst d')); [| assumption].
    apply Permutation_map. apply Permutation_sym. assumption.
Qed.

(** What [get_index_dictionary(sort=True)] returns on a well-formed table:
    the same bindings and the same total, in another order. *)
Lemma sorted_dictionary : forall self : Spider,
  Dict.wf (term_index self) ->
  let sd := get_index_dictionary self true in
  Dict.wf sd /\
  Permutation (Dict.keys sd) (Dict.keys (term_index self)) /\
  (forall k, Dict.get sd k = Dict.get (term_index self) k) /\
  sum_values sd = sum_values (term_index self).
Proof.
  intros self Hwf sd.
  assert (Hp : Permutation (sorted_desc (term_index self)) (term_index self))
    by apply sorted_desc_perm.
  assert (Hwfs : Dict.wf (sorted_desc (term_index self))).
  { apply (wf_perm (Permutation_sym Hp) Hwf). }
  assert (Hsd : sd = sorted_desc (term_index self)).
  { unfold sd, get_index_dictionary, Dict.items.
    apply (of_items_wf Hwfs). }
  rewrite Hsd. repeat split.
  - exact Hwfs.
  - unfold Dict.keys. apply Permutation_map. exact Hp.
  - intros k. apply get_perm; [apply Permutation_sym; exact Hp |].
    exact Hwf.
  - rewrite !sum_values_total. apply total_perm.
    unfold Dict.values. apply Permutation_map. exact Hp.
Qed.

(** ** Lemmas on the term index *)

Section SpiderLemmas.
Context {N : TextNormalizer}.

Lemma str_in_In : forall x l, str_in x l = true <-> In x l.
Proof.
  intros x l. unfold str_in. rewrite existsb_exists. split.
  - intros (y & Hy & E). apply String.eqb_eq in E. subst. assumption.
  - intros H. exists x. split; [assumption | apply String.eqb_refl].
Qed.

Lemma add_token_skip : forall sw st cv ti token,
  survives sw token = false -> add_token sw st cv ti token = inr ti.
Proof. intros. unfold add_token. rewrite H. reflexivity. Qed.

Lemma add_token_inr : forall sw st cv ti token ti',
  add_token sw st cv ti token = inr ti' ->
  (survives sw token = false /\ ti' = ti) \/
  (survives sw token = true /\
   exists s, st = Some s /\
     ti' = Dict.set ti (stem s token)
             (match Dict.get ti (stem s token) with
              | None => 1
              | Some c => c + cv
              end)%Z).
Proof.
  intros sw st cv ti token ti' H. unfold add_token in H.
  destruct (survives sw token).
  - right. split; [reflexivity |].
    destruct st as [s |]; simpl in H; [| discriminate].
    exists s. split; [reflexivity |].
    destruct (Dict.get ti (stem s token)); injection H as <-; reflexivity.
  - left. injection H as <-. split; reflexivity.
Qed.

(** With a stemmer the loop of [add_new_token] never raises. *)
Lemma add_tokens_total : forall sw s cv tokens ti,
  exists ti', foldM (add_token sw (Some s) cv) tokens ti = inr ti'.
Proof.
  induction tokens as [| token tokens IH]; intros ti; simpl.
  - exists ti. reflexivity.
  - unfold add_token at 1. destruct (survives sw token); simpl.
    + destruct (Dict.get ti (stem s token)); simpl; apply IH.
    + apply IH.
Qed.

(** Without any surviving token the loop leaves the table as it is, with
    or without a stemmer. *)
Lemma add_tokens_none_survive : forall sw st cv tokens ti,
  filter (survives sw) tokens = [] ->
  foldM (add_token sw st cv) tokens ti = inr ti.
Proof.
  induction tokens as [| token tokens IH]; intros ti H; simpl in *.
  - reflexivity.
  - destruct (survives sw token) eqn:E; [discriminate |].
    rewrite add_token_skip by assumption. simpl. apply IH. assumption.
Qed.

(** The table stays well formed, and its counts stay at least 1 when the
    increment is not negative. *)
Lemma add_tokens_counts : forall sw st cv tokens ti ti',
  (0 <= cv)%Z ->
  Dict.wf ti -> counts_at_least 1 ti ->
  foldM (add_token sw st cv) tokens ti = inr ti' ->
  Dict.wf ti' /\ counts_at_least 1 ti'.
Proof.
  intros sw st cv tokens ti ti' Hcv Hwf Hc H.
  refine (@foldM_invariant _ _ _
            (fun t => Dict.wf t /\ counts_at_least 1 t)
            tokens ti ti' _ (conj Hwf Hc) H).
  clear - Hcv. intros t token t' _ [Hwf Hc] Hstep.
  apply add_token_inr in Hstep.
  destruct Hstep as [[_ ->] | [_ (s & _ & ->)]]; [split; assumption |].
  split; [apply wf_set; assumption |].
  intros k c. rewrite get_set.
  destruct (String.eqb (stem s token) k).
  - intros [= <-].
    destruct (Dict.get t (stem s token)) as [c0 |] eqn:E; [| lia].
    apply Hc in E. lia.
  - apply Hc.
Qed.

(** Every key of the table after the loop was there before or is a folded
    term. *)
Lemma add_tokens_keys : forall sw st cv tokens ti ti',
  foldM (add_token sw st cv) tokens ti = inr ti' ->
  forall k, In k (Dict.keys ti') ->
    In k (Dict.keys ti) \/ In k (folded sw st tokens).
Proof.
  induction tokens as [| token tokens IH]; intros ti ti' H k Hk;
    simpl in H.
  - injection H as <-. left. assumption.
  - apply bind_inr in H. destruct H as (t1 & H1 & H2).
    apply add_token_inr in H1.
    destruct (IH _ _ H2 k Hk) as [Hin | Hin].
    + destruct H1 as [[_ ->] | [E (s & -> & ->)]]; [left; assumption |].
      destruct (keys_in_get _ _ Hin) as (v & Hv).
      rewrite get_set in Hv.
      destruct (String.eqb_spec (stem s token) k) as [<- | Hne].
      * right. simpl. rewrite E. left. reflexivity.
      * left. apply (get_keys_in _ _ Hv).
    + right. destruct H1 as [[E _] | [E (s & -> & _)]].
      * unfold folded in *. destruct st; [| assumption].
        simpl. rewrite E. assumption.
      * simpl in *. rewrite E. right. assumption.
Qed.

(** The loop with increment 0: a present term keeps its count, an absent
    term that is folded gets count 1, any other term stays absent. *)
Lemma add_tokens_zero : forall sw st tokens ti ti',
  foldM (add_token sw st 0%Z) tokens ti = inr ti' ->
  forall k,
    Dict.get ti' k =
    match Dict.get ti k with
    | Some c => Some c
    | None => if str_in k (folded sw st tokens) then Some 1%Z else None
    end.
Proof.
  induction tokens as [| token tokens IH]; intros ti ti' H k; simpl in H.
  - injection H as <-.
    destruct (Dict.get ti k); [reflexivity |].
    unfold folded. destruct st; reflexivity.
  - apply bind_inr in H. destruct H as (t1 & H1 & H2).
    rewrite (IH _ _ H2 k). clear IH H2.
    apply add_token_inr in H1.
    destruct H1 as [[E ->] | [E (s & -> & ->)]].
    + unfold folded. destruct st; simpl; rewrite ?E; reflexivity.
    + rewrite get_set. simpl. rewrite E. simpl.
      rewrite (String.eqb_sym k (stem s token)).
      destruct (String.eqb_spec (stem s token) k) as [<- | Hne].
      * destruct (Dict.get ti (stem s token)) as [c |];
          [f_equal; lia | reflexivity].
      * reflexivity.
Qed.

Lemma add_new_token_inr : forall self content cv self',
  add_new_token self content cv = inr self' ->
  same_setup self' self /\
  foldM (add_token (stopwords self) (stemmer self) cv)
    (word_tokenize content (language self)) (term_index self)
  = inr (term_index self').
Proof.
  intros self content cv self' H. unfold add_new_token in H.
  apply bind_inr in H. destruct H as (ti & H1 & H2).
  injection H2 as <-. simpl. split; [| assumption].
  repeat split.
Qed.

Lemma folded_terms_same : forall a b content,
  same_setup a b -> folded_terms a content = folded_terms b content.
Proof.
  intros a b content (H1 & H2 & H3 & _). unfold folded_terms.
  rewrite H1, H2, H3. reflexivity.
Qed.

Lemma same_setup_trans : forall a b c,
  same_setup a b -> same_setup b c -> same_setup a c.
Proof.
  unfold same_setup. intros a b c (A1 & A2 & A3 & A4) (B1 & B2 & B3 & B4).
  repeat split; congruence.
Qed.

End SpiderLemmas.

(** ** Lemmas on building the index *)

Section IndexLemmas.
Context {N : TextNormalizer}.

Lemma add_many_setup : forall cv contents s0 s1,
  foldM (fun s c => add_new_token s c cv) contents s0 = inr s1 ->
  same_setup s1 s0.
Proof.
  intros cv contents s0 s1 H.
  refine (@foldM_invariant _ _ _ (fun s => same_setup s s0)
            contents s0 s1 _ _ H).
  - intros s c s' _ Hs Hstep. apply add_new_token_inr in Hstep.
    apply (same_setup_trans (proj1 Hstep) Hs).
  - repeat split.
Qed.

Lemma add_many_counts : forall cv contents s0 s1,
  (0 <= cv)%Z ->
  Dict.wf (term_index s0) -> counts_at_least 1 (term_index s0) ->
  foldM (fun s c => add_new_token s c cv) contents s0 = inr s1 ->
  Dict.wf (term_index s1) /\ counts_at_least 1 (term_index s1).
Proof.
  intros cv contents s0 s1 Hcv Hwf Hc H.
  refine (@foldM_invariant _ _ _
            (fun s => Dict.wf (term_index s) /\
                      counts_at_least 1 (term_index s))
            contents s0 s1 _ (conj Hwf Hc) H).
  intros s c s' _ [Hw Hcs] Hstep. apply add_new_token_inr in Hstep.
  apply (add_tokens_counts _ _ _ Hcv Hw Hcs (proj2 Hstep)).
Qed.

Lemma add_many_keys : forall cv contents s0 s1,
  foldM (fun s c => add_new_token s c cv) contents s0 = inr s1 ->
  forall k, In k (Dict.keys (term_index s1)) ->
    In k (Dict.keys (term_index s0)) \/
    exists c, In c contents /\ In k (folded_terms s0 c).
Proof.
  induction contents as [| c contents IH]; intros s0 s1 H k Hk;
    simpl in H.
  - injection H as <-. left. assumption.
  - apply bind_inr in H. destruct H as (s' & H1 & H2).
    apply add_new_token_inr in H1. destruct H1 as [Hsame Hfold].
    destruct (IH _ _ H2 k Hk) as [Hin | (c' & Hc' & Hin)].
    + destruct (add_tokens_keys _ _ _ _ _ Hfold k Hin) as [Hin0 | Hin0].
      * left. assumption.
      * right. exists c. split; [left; reflexivity | exact Hin0].
    + right. exists c'. split; [right; assumption |].
      rewrite <- (folded_terms_same c' Hsame). assumption.
Qed.

Lemma add_many_zero : forall contents s0 s1,
  foldM (fun s c => add_new_token s c 0%Z) contents s0 = inr s1 ->
  forall k,
    Dict.get (term_index s1) k =
    match Dict.get (term_index s0) k with
    | Some c => Some c
    | None =>
        if existsb (fun c => str_in k (folded_terms s0 c)) contents
        then Some 1%Z else None
    end.
Proof.
  induction contents as [| c contents IH]; intros s0 s1 H k; simpl in H.
  - injection H as <-. destruct (Dict.get (term_index s0) k); reflexivity.
  - apply bind_inr in H. destruct H as (s' & H1 & H2).
    apply add_new_token_inr in H1. destruct H1 as [Hsame Hfold].
    rewrite (IH _ _ H2 k). rewrite (add_tokens_zero _ _ _ _ Hfold k).
    fold (folded_terms s0 c). simpl.
    assert (E : existsb (fun c0 => str_in k (folded_terms s' c0)) contents =
                existsb (fun c0 => str_in k (folded_terms s0 c0)) contents).
    { clear - Hsame. induction contents as [| c0 l IHl]; simpl.
      - reflexivity.
      - rewrite (folded_terms_same c0 Hsame), IHl. reflexivity. }
    rewrite E.
    destruct (Dict.get (term_index s0) k); [reflexivity |].
    destruct (str_in k (folded_terms s0 c)); [| reflexivity].
    simpl. reflexivity.
Qed.

Lemma foldM_map : forall (A B S : Type) (body : S -> B -> Py S)
    (f : A -> B) (l : list A) (s : S),
  foldM (fun s x => body s (f x)) l s = foldM body (map f l) s.
Proof.
  induction l as [| x l IH]; intros s; simpl.
  - reflexivity.
  - destruct (body s (f x)); simpl; [reflexivity | apply IH].
Qed.

(** [generate_term_index] is the corpus fold from the cleared table
    followed by the seed fold. *)
Lemma generate_term_index_inr : forall self seeds self',
  generate_term_index self seeds = inr self' ->
  exists mid,
    foldM (fun s c => add_new_token s c 1%Z)
      (map snd (content self)) (clear_index self) = inr mid /\
    foldM (fun s c => add_new_token s c 0%Z)
      (match seeds with Some terms => terms | None => [] end) mid
    = inr self'.
Proof.
  intros self seeds self' H. unfold generate_term_index in H.
  apply bind_inr in H. destruct H as (mid & H1 & H2).
  exists mid. split.
  - rewrite <- foldM_map. exact H1.
  - destruct seeds; simpl; assumption.
Qed.

(** The table [generate_term_index] builds is a well-formed dict whose
    counts are all at least 1. *)
Lemma generate_term_index_counts : forall self seeds self',
  generate_term_index self seeds = inr self' ->
  same_setup self' self /\
  Dict.wf (term_index self') /\ counts_at_least 1 (term_index self').
Proof.
  intros self seeds self' H.
  apply generate_term_index_inr in H. destruct H as (mid & H1 & H2).
  assert (Hmid : Dict.wf (term_index mid) /\
                 counts_at_least 1 (term_index mid)).
  { apply (add_many_counts (cv := 1%Z)) with (4 := H1); simpl.
    - lia.
    - constructor.
    - intros k c. discriminate. }
  split.
  - apply (same_setup_trans (add_many_setup _ _ _ H2)).
    apply (same_setup_trans (add_many_setup _ _ _ H1)).
    repeat split.
  - apply (add_many_counts (cv := 0%Z)) with (4 := H2);
      [lia | apply Hmid | apply Hmid].
Qed.

End IndexLemmas.

(** ** Lemmas on the weight model *)

Lemma py_truediv_inr : forall a b : Z,
  b <> 0%Z -> py_truediv a b = inr (IZR a / IZR b)%R.
Proof.
  intros a b H. unfold py_truediv.
  destruct (Z.eqb_spec b 0); [contradiction | reflexivity].
Qed.

Lemma math_log_inr : forall x : R, (0 < x)%R -> math_log x = inr (ln x).
Proof.
  intros x H. unfold math_log.
  destruct (Rlt_dec 0 x); [reflexivity | contradiction].
Qed.

Lemma ratio_pos : forall a b : Z,
  (0 < a)%Z -> (0 < b)%Z -> (0 < IZR a / IZR b)%R.
Proof.
  intros a b Ha Hb. apply Rdiv_lt_0_compat; apply (IZR_lt 0); assumption.
Qed.

Lemma ratio_ge_1 : forall a b : Z,
  (0 < b)%Z -> (b <= a)%Z -> (1 <= IZR a / IZR b)%R.
Proof.
  intros a b Hb Hab.
  assert (Hb' : (0 < IZR b)%R) by (apply (IZR_lt 0); assumption).
  assert (Hab' : (IZR b <= IZR a)%R) by (apply IZR_le; assumption).
  apply (Rmult_le_reg_r (IZR b)); [assumption |].
  unfold Rdiv. rewrite Rmult_assoc, Rinv_l by lra. lra.
Qed.

(** [ln (a / b)] is 0 exactly when the ratio is 1. *)
Lemma ln_ratio_zero : forall a b : Z,
  (0 < a)%Z -> (0 < b)%Z ->
  (ln (IZR a / IZR b) = 0%R <-> b = a).
Proof.
  intros a b Ha Hb.
  assert (Hb' : (0 < IZR b)%R) by (apply (IZR_lt 0); assumption).
  split.
  - intros H.
    destruct (Req_dec (IZR a / IZR b) 1) as [E | E].
    + apply eq_IZR.
      assert (IZR a = IZR a / IZR b * IZR b)%R as ->
        by (unfold Rdiv; rewrite Rmult_assoc, Rinv_l; lra).
      rewrite E. lra.
    + exfalso. apply (ln_neq_0 _ E); [| assumption].
      apply ratio_pos; assumption.
  - intros ->. unfold Rdiv. rewrite Rinv_r by lra. apply ln_1.
Qed.

Lemma ln_ratio_nonneg : forall a b : Z,
  (0 < b)%Z -> (b <= a)%Z -> (0 <= ln (IZR a / IZR b))%R.
Proof.
  intros a b Hb Hab.
  pose proof (ratio_ge_1 Hb Hab) as H.
  destruct H as [H | <-].
  - left. rewrite <- ln_1. apply ln_increasing; lra.
  - rewrite ln_1. lra.
Qed.

Lemma idf_step_inr : forall term_index total_count idf w c,
  Dict.get term_index w = Some c -> (0 < c)%Z -> (0 < total_count)%Z ->
  idf_step term_index total_count idf w =
  inr (Dict.set idf w (weight_of term_index total_count w)).
Proof.
  intros ti T idf w c Hget Hc HT. unfold idf_step, weight_of.
  rewrite Hget. simpl.
  rewrite py_truediv_inr by lia. simpl.
  rewrite math_log_inr by (apply ratio_pos; assumption).
  reflexivity.
Qed.

(** The weights after the loop: one for each word looped over, the former
    binding for any other key. *)
Lemma fold_set_get : forall (g : string -> R) (words : list string)
    (d0 : dict R) (k : string),
  Dict.get (fold_left (fun d w => Dict.set d w (g w)) words d0) k =
  if str_in k words then Some (g k) else Dict.get d0 k.
Proof.
  induction words as [| w words IH]; intros d0 k; simpl.
  - reflexivity.
  - rewrite IH, get_set. rewrite (String.eqb_sym k w).
    destruct (String.eqb_spec w k) as [-> | Hne]; simpl.
    + destruct (str_in k words); reflexivity.
    + reflexivity.
Qed.

Lemma idf_loop_inr : forall term_index total_count words idf0,
  (forall w, In w words ->
     exists c, Dict.get term_index w = Some c /\
               (0 < c)%Z /\ (0 < total_count)%Z) ->
  foldM (idf_step term_index total_count) words idf0 =
  inr (fold_left
         (fun d w => Dict.set d w (weight_of term_index total_count w))
         words idf0).
Proof.
  intros ti T words idf0 H. apply foldM_pure.
  intros d w Hw. destruct (H w Hw) as (c & Hget & Hc & HT).
  apply idf_step_inr with (c := c); assumption.
Qed.

(** The loop stops with [ZeroDivisionError] at the first word of count 0
    when no count is negative. *)
Lemma idf_loop_zero : forall term_index total_count words idf0,
  (forall w, In w words ->
     exists c, Dict.get term_index w = Some c /\ (0 <= c <= total_count)%Z) ->
  (exists w, In w words /\ Dict.get term_index w = Some 0%Z) ->
  foldM (idf_step term_index total_count) words idf0 =
  inl ZeroDivisionError.
Proof.
  intros ti T. induction words as [| w words IH]; intros idf0 Hall Hex.
  - destruct Hex as (w & [] & _).
  - simpl. destruct (Hall w (or_introl eq_refl)) as (c & Hget & Hc).
    destruct (Z.eq_dec c 0) as [-> | Hne].
    + unfold idf_step. rewrite Hget. reflexivity.
    + rewrite idf_step_inr with (c := c) by (assumption || lia). simpl.
      apply IH.
      * intros w' Hw'. apply Hall. right. assumption.
      * destruct Hex as (w0 & [<- | Hin] & H0).
        -- congruence.
        -- exists w0. split; assumption.
Qed.

(** [init_term_frequency] on a well-formed table of positive counts *)
Lemma init_term_frequency_inr : forall self : Tfidf,
  Dict.wf (term_index (spider self)) ->
  counts_at_least 1 (term_index (spider self)) ->
  let sd := get_index_dictionary (spider self) true in
  init_term_frequency self =
  inr {| spider := spider self;
         idf := fold_left
                  (fun d w => Dict.set d w (weight_of sd (sum_values sd) w))
                  (Dict.keys sd) (idf self);
         indexed_documents := indexed_documents self;
         word_vector := Dict.keys sd |}.
Proof.
  intros self Hwf Hc sd. unfold init_term_frequency. fold sd.
  destruct (sorted_dictionary _ Hwf) as (Hwfs & Hperm & Hget & Hsum).
  fold sd in Hwfs, Hperm, Hget, Hsum.
  rewrite idf_loop_inr; [reflexivity |].
  intros w Hw. destruct (keys_in_get _ _ Hw) as (c & Hc').
  exists c. split; [assumption |].
  assert (H1 : (1 <= c)%Z) by (apply (Hc w); rewrite <- Hget; assumption).
  assert (H2 : (c <= sum_values sd)%Z).
  { rewrite sum_values_total.
    apply (@total_lower (Dict.values sd) 1%Z); [| lia |].
    - intros x Hx. unfold Dict.values in Hx. apply in_map_iff in Hx.
      destruct Hx as ([k v] & <- & Hin). simpl.
      apply (Hc k). rewrite <- Hget. apply in_get_some; assumption.
    - apply get_some_in in Hc'. apply (in_map snd) in Hc'. exact Hc'. }
  lia.
Qed.

(** ** Lemmas on the vectorizer *)

Lemma np_setitem_total : forall (v : list R) (i : nat) (x : R),
  (i < length v)%nat -> exists v', np_setitem v i x = inr v'.
Proof.
  induction v as [| y v IH]; intros i x H; simpl in *.
  - lia.
  - destruct i as [| i].
    + eexists. reflexivity.
    + destruct (IH i x) as (v' & E); [lia |].
      rewrite E. simpl. eexists. reflexivity.
Qed.

Lemma np_setitem_length : forall (v : list R) (i : nat) (x : R) v',
  np_setitem v i x = inr v' -> length v' = length v.
Proof.
  induction v as [| y v IH]; intros i x v' H; simpl in H.
  - discriminate.
  - destruct i as [| i].
    + injection H as <-. reflexivity.
    + apply bind_inr in H. destruct H as (v1 & H1 & H2).
      injection H2 as <-. simpl. f_equal. apply (IH _ _ _ H1).
Qed.

Lemma np_setitem_Forall : forall (P : R -> Prop) (v : list R) (i : nat)
    (x : R) v',
  np_setitem v i x = inr v' -> Forall P v -> P x -> Forall P v'.
Proof.
  induction v as [| y v IH]; intros i x v' H Hv Hx; simpl in H.
  - discriminate.
  - inversion Hv as [| ? ? Hy Hv']; subst.
    destruct i as [| i].
    + injection H as <-. constructor; assumption.
    + apply bind_inr in H. destruct H as (v1 & H1 & H2).
      injection H2 as <-. constructor; [assumption |].
      apply (IH _ _ _ H1); assumption.
Qed.

Lemma list_index_total : forall (l : list string) (x : string),
  str_in x l = true ->
  exists i, list_index l x = inr i /\ (i < length l)%nat.
Proof.
  induction l as [| y l IH]; intros x H; simpl in *.
  - discriminate.
  - rewrite (String.eqb_sym x y) in H.
    destruct (String.eqb y x); simpl in *.
    + exists O. split; [reflexivity | lia].
    + destruct (IH x H) as (i & E & Hi). rewrite E. simpl.
      exists (S i). split; [reflexivity | lia].
Qed.

Lemma np_zeros_length : forall n, length (np_zeros n) = n.
Proof. intros n. apply repeat_length. Qed.

Lemma np_zeros_nonneg : forall n, Forall (fun x => (0 <= x)%R) (np_zeros n).
Proof.
  intros n. apply Forall_forall. intros x H.
  apply repeat_spec in H. subst. lra.
Qed.

Lemma key_count_le_sum : forall (b : Z) (lt : dict Z) (k : string) (c : Z),
  (0 <= b)%Z ->
  Dict.wf lt -> counts_at_least b lt -> Dict.get lt k = Some c ->
  (b <= c <= sum_values lt)%Z.
Proof.
  intros b lt k c Hb Hwf Hc Hget. split; [apply (Hc k c Hget) |].
  rewrite sum_values_total.
  apply (@total_lower (Dict.values lt) b); [| lia |].
  - intros x Hx. unfold Dict.values in Hx. apply in_map_iff in Hx.
    destruct Hx as ([k' v] & <- & Hin). simpl.
    apply (Hc k'). apply in_get_some; assumption.
  - apply get_some_in in Hget. apply (in_map snd) in Hget. exact Hget.
Qed.

Lemma key_count_bounds : forall (lt : dict Z) (k : string) (c : Z),
  Dict.wf lt -> counts_at_least 1 lt -> Dict.get lt k = Some c ->
  (1 <= c <= sum_values lt)%Z.
Proof. intros lt k c. apply key_count_le_sum. lia. Qed.

Section VectorLemmas.
Context {N : TextNormalizer}.

Lemma Spider_init_inr : forall c f lang self,
  Spider_init c f lang = inr self ->
  stopwords_words lang = Some (stopwords self) /\
  term_index self = [] /\
  language self = lang /\
  stemmer self =
    (if String.eqb lang "german" then Some GermanStemmer
     else if String.eqb lang "english" then Some EnglishStemmer
     else None).
Proof.
  intros c f l self H. unfold Spider_init in H.
  destruct (stopwords_words l) as [sw |]; simpl in H; [| discriminate].
  injection H as <-. simpl. repeat split.
Qed.

Lemma Spider_init_supported : forall c f lang,
  supported lang ->
  exists self s,
    Spider_init c f lang = inr self /\ stemmer self = Some s.
Proof.
  intros c f l [Hl Hsw]. unfold Spider_init.
  destruct (stopwords_words l) as [sw |]; [| contradiction]. simpl.
  destruct Hl as [-> | ->]; simpl; eexists; eexists; split; reflexivity.
Qed.

(** The document-scoped table of [create_word_vector] is a well-formed
    dict of counts that are at least 1. *)
Lemma ephemeral_index : forall c f lang text sp0 sp1,
  Spider_init c f lang = inr sp0 ->
  add_new_token sp0 text 1%Z = inr sp1 ->
  Dict.wf (term_index sp1) /\ counts_at_least 1 (term_index sp1).
Proof.
  intros c f l text sp0 sp1 H0 H1.
  apply Spider_init_inr in H0. destruct H0 as (_ & Hti & _).
  apply add_new_token_inr in H1. destruct H1 as [_ H1].
  rewrite Hti in H1.
  refine (@add_tokens_counts _ _ _ 1%Z _ [] _ _ _ _ H1).
  - lia.
  - constructor.
  - intros k v. discriminate.
Qed.

Lemma create_word_vector_inr : forall self text v,
  create_word_vector self text = inr v ->
  exists sp0 sp1,
    Spider_init "data" "txt" (language (spider self)) = inr sp0 /\
    add_new_token sp0 text 1%Z = inr sp1 /\
    foldM (vector_step self (term_index sp1)
             (sum_values (term_index sp1)))
      (Dict.keys (term_index sp1))
      (np_zeros (length (word_vector self))) = inr v.
Proof.
  intros self text v H. unfold create_word_vector in H.
  apply bind_inr in H. destruct H as (sp0 & H0 & H).
  apply bind_inr in H. destruct H as (sp1 & H1 & H).
  exists sp0, sp1. repeat split; assumption.
Qed.

Lemma vector_step_inr : forall self lt len v token v',
  vector_step self lt len v token = inr v' ->
  v' = v \/
  exists position w c,
    In token (word_vector self) /\
    Dict.get (idf self) token = Some w /\
    Dict.get lt token = Some c /\
    len <> 0%Z /\
    np_setitem v position (w * (IZR c / IZR len))%R = inr v'.
Proof.
  intros self lt len v token v' H. unfold vector_step in H.
  destruct (str_in token (word_vector self)) eqn:E.
  - right.
    apply bind_inr in H. destruct H as (position & _ & H).
    apply bind_inr in H. destruct H as (w & Hw & H).
    apply bind_inr in H. destruct H as (c & Hc & H).
    apply bind_inr in H. destruct H as (rate & Hrate & H).
    exists position, w, c.
    destruct (Dict.get (idf self) token); [| discriminate].
    destruct (Dict.get lt token); [| discriminate].
    injection Hw as ->. injection Hc as ->.
    unfold py_truediv in Hrate.
    destruct (Z.eqb_spec len 0); [discriminate |].
    injection Hrate as <-.
    repeat split; try assumption. apply str_in_In. assumption.
  - left. injection H as <-. reflexivity.
Qed.

(** The loop of [create_word_vector] never raises when every word of the
    vocabulary has a weight, and keeps the length of the vector. *)
Lemma vector_loop_total : forall self lt,
  weights_cover self -> Dict.wf lt -> counts_at_least 1 lt ->
  forall tokens v0,
    (forall t, In t tokens -> In t (Dict.keys lt)) ->
    length v0 = length (word_vector self) ->
    exists v,
      foldM (vector_step self lt (sum_values lt)) tokens v0 = inr v /\
      length v = length (word_vector self).
Proof.
  intros self lt Hcover Hwf Hc.
  induction tokens as [| t tokens IH]; intros v0 Hkeys Hlen; simpl.
  - exists v0. split; [reflexivity | assumption].
  - assert (Hstep : exists v1,
              vector_step self lt (sum_values lt) v0 t = inr v1 /\
              length v1 = length (word_vector self)).
    { unfold vector_step.
      destruct (str_in t (word_vector self)) eqn:E;
        [| exists v0; split; [reflexivity | assumption]].
      destruct (list_index_total _ _ E) as (i & Hi & Hlt).
      rewrite Hi. simpl.
      destruct (Dict.get (idf self) t) as [w |] eqn:Ew;
        [| exfalso; apply (Hcover t); [apply str_in_In |]; assumption].
      simpl.
      destruct (keys_in_get lt t) as (c & Ec);
        [apply Hkeys; left; reflexivity |].
      rewrite Ec. simpl.
      pose proof (key_count_bounds _ Hwf Hc Ec) as Hb.
      rewrite py_truediv_inr by lia. simpl.
      destruct (@np_setitem_total v0 i (w * (IZR c / IZR (sum_values lt)))%R)
        as (v1 & E1); [rewrite Hlen; assumption |].
      exists v1. split; [assumption |].
      rewrite (np_setitem_length _ _ _ E1). assumption. }
    destruct Hstep as (v1 & E1 & Hlen1). rewrite E1. simpl.
    apply IH; [| assumption].
    intros t' Ht'. apply Hkeys. right. assumption.
Qed.

(** Nonnegative weights give nonnegative coordinates. *)
Lemma vector_loop_nonneg : forall self lt tokens v0 v,
  Dict.wf lt -> counts_at_least 1 lt ->
  (forall w x, In w (word_vector self) ->
     Dict.get (idf self) w = Some x -> (0 <= x)%R) ->
  Forall (fun x => (0 <= x)%R) v0 ->
  foldM (vector_step self lt (sum_values lt)) tokens v0 = inr v ->
  Forall (fun x => (0 <= x)%R) v.
Proof.
  intros self lt tokens v0 v Hwf Hc Hidf Hv0 H.
  refine (@foldM_invariant _ _ _ (Forall (fun x => (0 <= x)%R))
            tokens v0 v _ Hv0 H).
  intros u t u' _ Hu Hstep. apply vector_step_inr in Hstep.
  destruct Hstep as [-> | (i & w & c & Hin & Hw & Hcnt & _ & Hset)];
    [assumption |].
  apply np_setitem_Forall with (1 := Hset); [assumption |].
  pose proof (key_count_bounds _ Hwf Hc Hcnt) as Hb.
  apply Rmult_le_pos; [apply (Hidf t w Hin Hw) |].
  left. apply ratio_pos; lia.
Qed.

(** [create_word_vector] returns a vector of the vocabulary's length
    whenever the language is supported and every word has a weight. *)
Lemma create_word_vector_total : forall self text,
  supported (language (spider self)) -> weights_cover self ->
  exists v,
    create_word_vector self text = inr v /\
    length v = length (word_vector self).
Proof.
  intros self text Hsup Hcover. unfold create_word_vector.
  destruct (Spider_init_supported "data" "txt" Hsup)
    as (sp0 & s & H0 & Hs).
  rewrite H0. simpl.
  assert (H1 : exists sp1, add_new_token sp0 text 1%Z = inr sp1).
  { unfold add_new_token. rewrite Hs.
    destruct (add_tokens_total (stopwords sp0) s 1%Z
                (word_tokenize text (language sp0)) (term_index sp0))
      as (ti & E).
    rewrite E. simpl. eexists. reflexivity. }
  destruct H1 as (sp1 & H1). rewrite H1. simpl.
  destruct (ephemeral_index _ _ _ _ H0 H1) as [Hwf Hc].
  unfold get_index_dictionary.
  apply vector_loop_total; try assumption.
  - intros t Ht. exact Ht.
  - apply np_zeros_length.
Qed.

End VectorLemmas.

(** ** Lemmas on the document store and on the search *)

Section StoreLemmas.
Context {N : TextNormalizer}.

(** After the loop of [init_term_frequency] every word looped over has a
    weight, and no weight was removed. *)
Lemma idf_loop_cover : forall term_index total_count words idf0 idf',
  foldM (idf_step term_index total_count) words idf0 = inr idf' ->
  forall w, In w words \/ Dict.get idf0 w <> None ->
    Dict.get idf' w <> None.
Proof.
  induction words as [| x words IH]; intros idf0 idf' H w Hw; simpl in H.
  - injection H as <-. destruct Hw as [[] | Hw]. assumption.
  - apply bind_inr in H. destruct H as (idf1 & H1 & H2).
    apply (IH _ _ H2).
    unfold idf_step in H1.
    apply bind_inr in H1. destruct H1 as (c & _ & H1).
    apply bind_inr in H1. destruct H1 as (q & _ & H1).
    apply bind_inr in H1. destruct H1 as (lg & _ & H1).
    injection H1 as <-.
    destruct (String.eqb_spec x w) as [-> | Hne].
    + right. rewrite get_set_same. discriminate.
    + destruct Hw as [[E | Hw] | Hw].
      * contradiction.
      * left. assumption.
      * right. rewrite get_set_other by assumption. assumption.
Qed.

Lemma init_term_frequency_cover : forall self self',
  init_term_frequency self = inr self' ->
  spider self' = spider self /\
  indexed_documents self' = indexed_documents self /\
  weights_cover self'.
Proof.
  intros self self' H. unfold init_term_frequency in H.
  apply bind_inr in H. destruct H as (idf' & H1 & H2).
  injection H2 as <-. simpl. repeat split.
  intros w Hw. simpl in *.
  apply (idf_loop_cover _ _ _ _ H1). left. assumption.
Qed.

(** [insert_documents] writes the document store only. *)
Lemma insert_documents_frame : forall self content self',
  insert_documents self content = inr self' ->
  spider self' = spider self /\
  idf self' = idf self /\
  word_vector self' = word_vector self.
Proof.
  intros self content self' H. unfold insert_documents in H.
  apply bind_inr in H. destruct H as (items & _ & H).
  refine (@foldM_invariant _ _ _
            (fun s => spider s = spider self /\ idf s = idf self /\
                      word_vector s = word_vector self)
            items self self' _ _ H).
  - intros s kv s' _ Hs Hstep.
    apply bind_inr in Hstep. destruct Hstep as (v & _ & Hstep).
    injection Hstep as <-. simpl. assumption.
  - repeat split.
Qed.

Lemma Tfidf_init_inr : forall sp policy docs self,
  Tfidf_init sp policy docs = inr self ->
  spider self = sp /\ weights_cover self.
Proof.
  intros sp policy docs self H. unfold Tfidf_init in H.
  apply bind_inr in H. destruct H as (s1 & H1 & H).
  apply bind_inr in H. destruct H as (content & _ & H).
  apply init_term_frequency_cover in H1.
  destruct H1 as (Hsp & _ & Hcover). simpl in Hsp.
  apply insert_documents_frame in H. destruct H as (E1 & E2 & E3).
  split; [congruence |].
  unfold weights_cover in *. rewrite E2, E3. assumption.
Qed.

(** An unknown [index_documents] never yields a [Tfidf]. *)
Lemma Tfidf_init_unknown_policy : forall sp policy docs,
  policy <> "same"%string -> policy <> "new"%string ->
  policy <> "add"%string ->
  exists e, Tfidf_init sp policy docs = inl e.
Proof.
  intros sp policy docs H1 H2 H3. unfold Tfidf_init.
  destruct (init_term_frequency _) as [e | s]; simpl.
  - exists e. reflexivity.
  - destruct (String.eqb_spec policy "same"); [contradiction |].
    destruct (String.eqb_spec policy "new"); [contradiction |].
    destruct (String.eqb_spec policy "add"); [contradiction |].
    simpl. eexists. reflexivity.
Qed.

(** A language with a stop list other than 'german' and 'english' gives a
    spider without a stemmer, and no error. *)
Lemma Spider_init_other_language : forall c f lang sw,
  stopwords_words lang = Some sw ->
  lang <> "german"%string -> lang <> "english"%string ->
  exists self, Spider_init c f lang = inr self /\ stemmer self = None.
Proof.
  intros c f lang sw Hsw H1 H2. unfold Spider_init. rewrite Hsw. simpl.
  destruct (String.eqb_spec lang "german"); [contradiction |].
  destruct (String.eqb_spec lang "english"); [contradiction |].
  eexists. split; reflexivity.
Qed.

(** The scan keeps its running minimum when no stored vector is strictly
    closer. *)
Lemma scan_keeps_best : forall (q : list R) (docs : dict (list R))
    (best : string * R),
  (forall kv, In kv docs ->
     exists diff, np_sub (snd kv) q = inr diff /\
                  (snd best <= np_linalg_norm diff)%R) ->
  foldM (search_step q) docs best = inr best.
Proof.
  induction docs as [| kv docs IH]; intros best H; simpl.
  - reflexivity.
  - destruct (H kv (or_introl eq_refl)) as (diff & Hd & Hle).
    unfold search_step at 1. rewrite Hd. simpl.
    destruct (Rlt_dec (np_linalg_norm diff) (snd best)) as [Hlt | _].
    + lra.
    + simpl. apply IH. intros kv' Hin. apply H. right. assumption.
Qed.

End StoreLemmas.

(** ** The tests decide their properties *)

Lemma counts_at_leastb_sound : forall (b : Z) (ti : dict Z),
  counts_at_leastb b ti = true -> counts_at_least b ti.
Proof.
  intros b ti H k c Hget. apply get_some_in in Hget.
  unfold counts_at_leastb in H. rewrite forallb_forall in H.
  apply H in Hget. simpl in Hget. lia.
Qed.

Lemma wfb_sound : forall (V : Type) (d : dict V),
  wfb d = true -> Dict.wf d.
Proof.
  induction d as [| [k v] d IH]; intros H.
  - constructor.
  - cbn [wfb] in H. apply andb_prop in H. destruct H as [H1 H2].
    unfold Dict.wf, Dict.keys in *. cbn [map fst].
    constructor; [| apply IH; assumption].
    intros Hin. apply str_in_In in Hin. rewrite Hin in H1. discriminate.
Qed.

(** * The properties *)

(** C1: for a table built by [generate_term_index], [init_term_frequency]
    returns, its vocabulary is the set of keys of the table, and for every
    term [w] of the vocabulary the stored weight is
    [ln (totalMass / rawFrequency[w])], where [totalMass] is the sum of all
    raw frequencies; that weight is 0 if and only if
    [rawFrequency[w] = totalMass]. *)
Theorem weights_are_log_ratios :
  forall {N : TextNormalizer} (sp : Spider) (additional : option (list string))
         (sp' : Spider) (self : Tfidf),
  generate_term_index sp additional = inr sp' ->
  spider self = sp' ->
  let total_mass := sum_values (term_index sp') in
  exists self',
    init_term_frequency self = inr self' /\
    (forall w, In w (word_vector self') <->
               In w (Dict.keys (term_index sp'))) /\
    forall w, In w (word_vector self') ->
      exists c,
        Dict.get (term_index sp') w = Some c /\
        Dict.get (idf self') w = Some (ln (IZR total_mass / IZR c)) /\
        (ln (IZR total_mass / IZR c) = 0%R <-> c = total_mass).
Proof.
  intros N sp additional sp' self Hgen Hsp total_mass.
  destruct (generate_term_index_counts _ _ Hgen) as (_ & Hwf & Hc).
  subst sp'.
  destruct (sorted_dictionary _ Hwf) as (Hwfs & Hperm & Hget & Hsum).
  rewrite init_term_frequency_inr by assumption.
  eexists. split; [reflexivity |]. cbn [idf word_vector]. split.
  - intros w. split; apply Permutation_in;
      [exact Hperm | apply Permutation_sym; exact Hperm].
  - intros w Hw. destruct (keys_in_get _ _ Hw) as (c & Hc').
    exists c. rewrite <- Hget. split; [assumption |].
    rewrite Hget in Hc'.
    pose proof (key_count_bounds _ Hwf Hc Hc') as Hb.
    split.
    + rewrite fold_set_get.
      assert (E : str_in w (Dict.keys (get_index_dictionary (spider self)
                                         true)) = true)
        by (apply str_in_In; assumption).
      rewrite E. unfold weight_of. rewrite Hget, Hc', Hsum. reflexivity.
    + apply ln_ratio_zero; unfold total_mass; lia.
Qed.

(** The corpus of two documents with three seeds: 'cat' occurs twice among
    eight counted terms. *)
Lemma weights_are_log_ratios_witness :
  generate_term_index (N := Toy.normalizer) Toy.corpus_spider
    (Some Toy.seeds) = inr Toy.indexed_spider /\
  exists self',
    init_term_frequency (Toy.fresh Toy.indexed_spider) = inr self' /\
    Dict.get (idf self') "cat" = Some (ln (8 / 2)).
Proof.
  split; [reflexivity |].
  destruct (@weights_are_log_ratios Toy.normalizer Toy.corpus_spider
              (Some Toy.seeds) Toy.indexed_spider
              (Toy.fresh Toy.indexed_spider) eq_refl eq_refl)
    as (self' & Hinit & Hvoc & Hw).
  exists self'. split; [exact Hinit |].
  destruct (Hw "cat"%string) as (c & Hc & Hidf & _).
  - apply Hvoc. simpl. left. reflexivity.
  - injection Hc as <-. exact Hidf.
Defined.

(** The toy objects are what the code builds. *)
Lemma indexed_tfidf_built :
  Tfidf_init (N := Toy.normalizer) Toy.indexed_spider "same" None
  = inr Toy.indexed_tfidf.
Proof.
  unfold Tfidf_init.
  rewrite init_term_frequency_inr;
    [| apply wfb_sound; reflexivity
     | apply counts_at_leastb_sound; reflexivity].
  reflexivity.
Qed.

Lemma zero_spider_built :
  (sp <- Spider_init (N := Toy.normalizer) "data" "txt" "english" ;;
   sp <- add_new_token (N := Toy.normalizer) sp "aa bb aa" 1%Z ;;
   add_new_token (N := Toy.normalizer) sp "bb" (-1)%Z)
  = inr Toy.zero_spider.
Proof. reflexivity. Qed.

Lemma far_spider_built :
  (sp <- Spider_init (N := Toy.normalizer) "data" "txt" "english" ;;
   sp <- add_new_token (N := Toy.normalizer) sp "aa" 1%Z ;;
   sp <- add_new_token (N := Toy.normalizer) sp "aa" (10 ^ 50 - 1)%Z ;;
   add_new_token (N := Toy.normalizer) sp "bb" 1%Z)
  = inr Toy.far_spider.
Proof. vm_compute. reflexivity. Qed.

(** C10: when every count of the raw frequency table is at least 1,
    [init_term_frequency] returns and every weight of the vocabulary is
    nonnegative; consequently every coordinate of every vector that
    [create_word_vector] produces against that vocabulary and those weights
    is nonnegative. *)
Theorem weights_and_coordinates_nonneg :
  forall {N : TextNormalizer} (self : Tfidf),
  Dict.wf (term_index (spider self)) ->
  counts_at_least 1 (term_index (spider self)) ->
  exists self',
    init_term_frequency self = inr self' /\
    (forall w, In w (word_vector self') ->
       exists x, Dict.get (idf self') w = Some x /\ (0 <= x)%R) /\
    (forall (t : Tfidf) (text : string) (v : list R),
       word_vector t = word_vector self' -> idf t = idf self' ->
       create_word_vector t text = inr v ->
       Forall (fun x => (0 <= x)%R) v).
Proof.
  intros N self Hwf Hc.
  destruct (sorted_dictionary _ Hwf) as (Hwfs & Hperm & Hget & Hsum).
  rewrite init_term_frequency_inr by assumption.
  eexists. split; [reflexivity |]. cbn [idf word_vector].
  set (sd := get_index_dictionary (spider self) true) in *.
  assert (Hnn : forall w, In w (Dict.keys sd) ->
            exists x,
              Dict.get
                (fold_left
                   (fun d w0 => Dict.set d w0
                                  (weight_of sd (sum_values sd) w0))
                   (Dict.keys sd) (idf self)) w = Some x /\ (0 <= x)%R).
  { intros w Hw. rewrite fold_set_get.
    assert (E : str_in w (Dict.keys sd) = true)
      by (apply str_in_In; assumption).
    rewrite E. eexists. split; [reflexivity |].
    unfold weight_of. destruct (keys_in_get _ _ Hw) as (c & Hc').
    rewrite Hc'. rewrite Hget in Hc'.
    pose proof (key_count_bounds _ Hwf Hc Hc') as Hb.
    apply ln_ratio_nonneg; lia. }
  split; [exact Hnn |].
  intros t text v Hwv Hidf Hcwv.
  apply create_word_vector_inr in Hcwv.
  destruct Hcwv as (sp0 & sp1 & H0 & H1 & Hloop).
  destruct (ephemeral_index _ _ _ _ H0 H1) as [Hwf1 Hc1].
  apply (vector_loop_nonneg _ _ Hwf1 Hc1) with (3 := Hloop).
  - intros w x Hw Hx. rewrite Hwv in Hw. rewrite Hidf in Hx.
    destruct (Hnn w Hw) as (x' & Hx' & Hpos). congruence.
  - apply np_zeros_nonneg.
Qed.

(** On the two-document corpus the vector of 'the cat ran' has no negative
    coordinate. *)
Lemma weights_and_coordinates_nonneg_witness :
  Dict.wf (term_index Toy.indexed_spider) /\
  counts_at_least 1 (term_index Toy.indexed_spider) /\
  exists v,
    create_word_vector (N := Toy.normalizer) Toy.indexed_tfidf "the cat ran"
    = inr v /\
    Forall (fun x => (0 <= x)%R) v.
Proof.
  assert (Hwf : Dict.wf (term_index Toy.indexed_spider))
    by (apply wfb_sound; reflexivity).
  assert (Hc : counts_at_least 1 (term_index Toy.indexed_spider))
    by (apply counts_at_leastb_sound; reflexivity).
  split; [exact Hwf |]. split; [exact Hc |].
  destruct (@weights_and_coordinates_nonneg Toy.normalizer
              (Toy.fresh Toy.indexed_spider) Hwf Hc)
    as (self' & Hinit & _ & Hvec).
  rewrite init_term_frequency_inr in Hinit by assumption.
  injection Hinit as <-.
  eexists. split; [reflexivity |].
  apply (Hvec Toy.indexed_tfidf "the cat ran"%string); reflexivity.
Defined.

(** C5, counterexample: the weight computation over the empty vocabulary
    (total mass 0) returns; it raises nothing. *)
Lemma empty_vocabulary_no_error :
  sum_values (get_index_dictionary Toy.empty_spider true) = 0%Z /\
  init_term_frequency (Toy.fresh Toy.empty_spider)
  = inr (Toy.fresh Toy.empty_spider).
Proof. split; reflexivity. Qed.

(** C5, amended: the weight computation over an empty vocabulary returns
    and leaves the weight table as it is, with an empty vocabulary; over a
    table without negative counts that holds a term of count 0 it fails with
    a [ZeroDivisionError]. *)
Theorem weight_computation_edge_cases : forall self : Tfidf,
  (term_index (spider self) = [] ->
   init_term_frequency self =
   inr {| spider := spider self;
          idf := idf self;
          indexed_documents := indexed_documents self;
          word_vector := [] |}) /\
  (Dict.wf (term_index (spider self)) ->
   counts_at_least 0 (term_index (spider self)) ->
   (exists w, Dict.get (term_index (spider self)) w = Some 0%Z) ->
   init_term_frequency self = inl ZeroDivisionError).
Proof.
  intros self. split.
  - intros E. unfold init_term_frequency, get_index_dictionary.
    rewrite E. reflexivity.
  - intros Hwf Hc (w & Hw). unfold init_term_frequency.
    destruct (sorted_dictionary _ Hwf) as (Hwfs & Hperm & Hget & Hsum).
    rewrite idf_loop_zero; [reflexivity | |].
    + intros k Hk. destruct (keys_in_get _ _ Hk) as (c & Hc').
      exists c. split; [assumption |]. rewrite Hget in Hc'. rewrite Hsum.
      apply (@key_count_le_sum 0%Z _ k); (lia || assumption).
    + exists w. rewrite Hget. split; [| assumption].
      apply (Permutation_in _ (Permutation_sym Hperm)).
      apply (get_keys_in _ _ Hw).
Qed.

(** The empty spider, and the table with 'aa' counted twice and 'bb'
    brought down to 0. *)
Lemma weight_computation_edge_cases_witness :
  term_index (spider (Toy.fresh Toy.empty_spider)) = [] /\
  init_term_frequency (Toy.fresh Toy.empty_spider)
  = inr (Toy.fresh Toy.empty_spider) /\
  Dict.wf (term_index Toy.zero_spider) /\
  counts_at_least 0 (term_index Toy.zero_spider) /\
  Dict.get (term_index Toy.zero_spider) "bb" = Some 0%Z /\
  init_term_frequency (Toy.fresh Toy.zero_spider) = inl ZeroDivisionError.
Proof.
  assert (Hwf : Dict.wf (term_index Toy.zero_spider))
    by (apply wfb_sound; reflexivity).
  assert (Hc : counts_at_least 0 (term_index Toy.zero_spider))
    by (apply counts_at_leastb_sound; reflexivity).
  split; [reflexivity |].
  split;
    [exact (proj1 (weight_computation_edge_cases
                     (Toy.fresh Toy.empty_spider)) eq_refl) |].
  split; [exact Hwf |]. split; [exact Hc |]. split; [reflexivity |].
  apply (proj2 (weight_computation_edge_cases (Toy.fresh Toy.zero_spider)));
    [exact Hwf | exact Hc |].
  exists "bb"%string. reflexivity.
Defined.

(** C4, counterexample: a text of stop words and one-letter tokens has no
    surviving token, and its vectorization returns the zero vector; it
    raises nothing. *)
Lemma empty_text_gives_zero_vector :
  filter (survives (stopwords Toy.indexed_spider))
    (word_tokenize (TextNormalizer := Toy.normalizer) "the of a" "english")
  = [] /\
  create_word_vector (N := Toy.normalizer) Toy.indexed_tfidf "the of a"
  = inr [0; 0; 0; 0; 0; 0]%R.
Proof. split; reflexivity. Qed.

(** C4, amended: for every input text whose surviving-token count after
    normalization, length filtering and stop-word removal is zero,
    vectorization returns the zero vector of the vocabulary's length. *)
Theorem vectorize_without_tokens :
  forall {N : TextNormalizer} (self : Tfidf) (text : string)
         (sw : list string),
  stopwords_words (language (spider self)) = Some sw ->
  filter (survives sw) (word_tokenize text (language (spider self))) = [] ->
  create_word_vector self text
  = inr (np_zeros (length (word_vector self))).
Proof.
  intros N self text sw Hsw Hnone.
  unfold create_word_vector, Spider_init. rewrite Hsw. simpl.
  unfold add_new_token. simpl.
  rewrite add_tokens_none_survive by assumption.
  reflexivity.
Qed.

(** The same text against the toy vocabulary of six terms. *)
Lemma vectorize_without_tokens_witness :
  stopwords_words (TextNormalizer := Toy.normalizer)
    (language (spider Toy.indexed_tfidf)) = Some ["the"; "and"; "of"]%string /\
  create_word_vector (N := Toy.normalizer) Toy.indexed_tfidf "the of a"
  = inr (np_zeros 6).
Proof.
  split; [reflexivity |].
  exact (@vectorize_without_tokens Toy.normalizer Toy.indexed_tfidf
           "the of a"%string ["the"; "and"; "of"]%string eq_refl eq_refl).
Defined.

(** The loop of [create_word_vector] reads the vocabulary and the weight
    table of [self] and nothing else of it. *)
Lemma vector_loop_ext : forall (a b : Tfidf),
  word_vector a = word_vector b -> idf a = idf b ->
  forall lt len tokens v,
    foldM (vector_step a lt len) tokens v =
    foldM (vector_step b lt len) tokens v.
Proof.
  intros a b Hwv Hidf lt len.
  induction tokens as [| t tokens IH]; intros v; simpl; [reflexivity |].
  assert (E : vector_step a lt len v t = vector_step b lt len v t).
  { unfold vector_step. rewrite Hwv, Hidf. reflexivity. }
  rewrite E. destruct (vector_step b lt len v t); simpl;
    [reflexivity | apply IH].
Qed.

(** C8: vectorizing a text twice against the same vocabulary and weight
    table (and the same language) yields the same result, coordinate by
    coordinate, whatever else differs between the two states. *)
Theorem create_word_vector_deterministic :
  forall {N : TextNormalizer} (a b : Tfidf) (text : string),
  language (spider a) = language (spider b) ->
  word_vector a = word_vector b ->
  idf a = idf b ->
  create_word_vector a text = create_word_vector b text.
Proof.
  intros N a b text Hlang Hwv Hidf.
  unfold create_word_vector. rewrite Hlang, Hwv.
  destruct (Spider_init "data" "txt" (language (spider b))) as [e | sp0];
    simpl; [reflexivity |].
  destruct (add_new_token sp0 text 1%Z) as [e | sp1]; simpl;
    [reflexivity |].
  apply vector_loop_ext; assumption.
Qed.

(** The state right after construction and a state with an emptied store
    and the spider before indexing give the same vector. *)
Lemma create_word_vector_deterministic_witness :
  let b := {| spider := Toy.corpus_spider;
              idf := idf Toy.indexed_tfidf;
              indexed_documents := [];
              word_vector := word_vector Toy.indexed_tfidf |} in
  language (spider Toy.indexed_tfidf) = language (spider b) /\
  create_word_vector (N := Toy.normalizer) Toy.indexed_tfidf "the dog ran"
  = create_word_vector (N := Toy.normalizer) b "the dog ran".
Proof.
  intros b. split; [reflexivity |].
  exact (@create_word_vector_deterministic Toy.normalizer
           Toy.indexed_tfidf b "the dog ran"%string
           eq_refl eq_refl eq_refl).
Defined.

(** C6: [add_new_token] with increment 0 gives count 1 to each folded term
    that is absent from the table and leaves every present count as it is;
    hence after [generate_term_index] a term of a seed that is folded from no
    corpus document has count 1, however often the seeds list it. *)
Theorem seeds_fold_with_increment_zero : forall {N : TextNormalizer},
  (forall (self : Spider) (content : string) (self' : Spider),
     add_new_token self content 0%Z = inr self' ->
     forall k,
       Dict.get (term_index self') k =
       match Dict.get (term_index self) k with
       | Some c => Some c
       | None =>
           if str_in k (folded_terms self content) then Some 1%Z else None
       end) /\
  (forall (self : Spider) (seeds : list string) (self' : Spider),
     generate_term_index self (Some seeds) = inr self' ->
     forall seed k,
       In seed seeds -> In k (folded_terms self seed) ->
       (forall doc, In doc (content self) ->
          ~ In k (folded_terms self (snd doc))) ->
       Dict.get (term_index self') k = Some 1%Z).
Proof.
  intros N. split.
  - intros self content self' H k.
    apply add_new_token_inr in H. destruct H as [_ H].
    apply (add_tokens_zero _ _ _ _ H k).
  - intros self seeds self' H seed k Hseed Hk Hcorpus.
    apply generate_term_index_inr in H. destruct H as (mid & H1 & H2).
    assert (Hsame : same_setup mid self).
    { apply (same_setup_trans (add_many_setup _ _ _ H1)). repeat split. }
    assert (Hnone : Dict.get (term_index mid) k = None).
    { apply get_none_keys. intros Hin.
      destruct (add_many_keys _ _ _ H1 k Hin) as [[] | (c & Hc & Hfold)].
      apply in_map_iff in Hc. destruct Hc as (doc & <- & Hdoc).
      apply (Hcorpus doc Hdoc).
      rewrite <- (folded_terms_same (snd doc) (a := clear_index self));
        [assumption | repeat split]. }
    rewrite (add_many_zero _ _ H2 k), Hnone.
    assert (E : existsb (fun c => str_in k (folded_terms mid c)) seeds
                = true).
    { apply existsb_exists. exists seed. split; [assumption |].
      apply str_in_In. rewrite (folded_terms_same seed Hsame). assumption. }
    rewrite E. reflexivity.
Qed.

(** 'gpu' is listed in two seeds and occurs in no document: its count is 1;
    'cat' occurs twice in the corpus and keeps its count 2. *)
Lemma seeds_fold_with_increment_zero_witness :
  generate_term_index (N := Toy.normalizer) Toy.corpus_spider
    (Some Toy.seeds) = inr Toy.indexed_spider /\
  In "gpu"%string (folded_terms (N := Toy.normalizer) Toy.corpus_spider "gpu card") /\
  Dict.get (term_index Toy.indexed_spider) "gpu" = Some 1%Z.
Proof.
  split; [reflexivity |]. split; [left; reflexivity |].
  apply (proj2 (@seeds_fold_with_increment_zero Toy.normalizer)
           Toy.corpus_spider Toy.seeds Toy.indexed_spider eq_refl
           "gpu card"%string "gpu"%string).
  - right. right. left. reflexivity.
  - left. reflexivity.
  - intros doc [<- | [<- | []]]; simpl; intuition discriminate.
Defined.

(** Over a spider of a supported language ('german' or 'english', with a
    stop list), a [Tfidf] that [Tfidf.__init__] returned with an empty
    document store answers every query text with 'no document found' and
    raises nothing. *)
Theorem search_on_empty_store :
  forall {N : TextNormalizer} (sp : Spider) (policy : string)
         (docs : option (dict string)) (self : Tfidf) (text : string)
         (verbose : bool),
  supported (language sp) ->
  Tfidf_init sp policy docs = inr self ->
  indexed_documents self = [] ->
  search self text verbose = inr no_document_found.
Proof.
  intros N sp policy docs self text verbose Hsup Hinit Hempty.
  apply Tfidf_init_inr in Hinit. destruct Hinit as [Hsp Hcover].
  rewrite <- Hsp in Hsup.
  destruct (create_word_vector_total text Hsup Hcover) as (q & Hq & _).
  unfold search, search_scan. rewrite Hq, Hempty. reflexivity.
Qed.

(** The indexed toy spider with [index_documents='new'] and an empty
    mapping of new documents. *)
Lemma search_on_empty_store_witness :
  supported (N := Toy.normalizer) (language Toy.indexed_spider) /\
  (exists self,
     Tfidf_init (N := Toy.normalizer) Toy.indexed_spider "new" (Some [])
     = inr self /\
     indexed_documents self = [] /\
     search (N := Toy.normalizer) self "the cat sat" true
     = inr no_document_found).
Proof.
  assert (Hsup : supported (N := Toy.normalizer)
                   (language Toy.indexed_spider)).
  { split; [right; reflexivity | discriminate]. }
  split; [exact Hsup |].
  assert (Hinit : Tfidf_init (N := Toy.normalizer) Toy.indexed_spider "new"
                    (Some [])
                  = inr {| spider := Toy.indexed_spider;
                           idf := idf Toy.indexed_tfidf;
                           indexed_documents := [];
                           word_vector := word_vector Toy.indexed_tfidf |}).
  { unfold Tfidf_init.
    rewrite init_term_frequency_inr;
      [| apply wfb_sound; reflexivity
       | apply counts_at_leastb_sound; reflexivity].
    reflexivity. }
  eexists. split; [exact Hinit |]. split; [reflexivity |].
  exact (@search_on_empty_store Toy.normalizer Toy.indexed_spider
           "new"%string (Some []) _ "the cat sat"%string true
           Hsup Hinit eq_refl).
Defined.

(** ** The running minimum starts at 100 *)

Lemma ln_3_ge_1 : (1 <= ln 3)%R.
Proof.
  rewrite <- (ln_exp 1) at 1.
  destruct exp_le_3 as [Hlt | Heq].
  - left. apply ln_increasing; [apply exp_pos | assumption].
  - rewrite Heq. lra.
Qed.

(** The weight of a term of count 1 in a table of total mass [10^50 + 1] *)
Lemma far_weight_ge_100 : (100 <= ln (IZR (10 ^ 50 + 1) / 1))%R.
Proof.
  assert (H3 : (0 < 3 ^ 100)%R) by (apply pow_lt; lra).
  assert (Hle : (3 ^ 100 <= IZR (10 ^ 50 + 1) / 1)%R).
  { unfold Rdiv. rewrite Rinv_1, Rmult_1_r.
    rewrite pow_IZR. apply IZR_le. vm_compute. discriminate. }
  assert (Hln : (ln (3 ^ 100) <= ln (IZR (10 ^ 50 + 1) / 1))%R).
  { destruct Hle as [Hlt | Heq].
    - left. apply ln_increasing; assumption.
    - rewrite Heq. lra. }
  rewrite ln_pow in Hln by lra.
  replace (INR 100) with 100%R in Hln
    by (rewrite INR_IZR_INZ; reflexivity).
  pose proof ln_3_ge_1. lra.
Qed.

(** The distance between the stored vector of 'bb' and the zero vector *)
Lemma far_distance :
  (100 <= np_linalg_norm
            [0 - 0; ln (IZR (10 ^ 50 + 1) / 1) * (1 / 1) - 0])%R.
Proof.
  pose proof far_weight_ge_100 as H.
  set (L := ln (IZR (10 ^ 50 + 1) / 1)) in *.
  unfold np_linalg_norm. simpl.
  replace ((0 - 0) * (0 - 0) + ((L * (1 / 1) - 0) * (L * (1 / 1) - 0) + 0))%R
    with (L * L)%R by (unfold Rdiv; field).
  rewrite sqrt_square by lra. exact H.
Qed.

Lemma far_tfidf_built :
  Tfidf_init (N := Toy.normalizer) Toy.far_spider "new"
    (Some [("doc", "bb")]%string)
  = inr Toy.far_tfidf.
Proof.
  unfold Tfidf_init.
  rewrite init_term_frequency_inr;
    [| apply wfb_sound; reflexivity
     | apply counts_at_leastb_sound; reflexivity].
  reflexivity.
Qed.

Lemma far_query :
  create_word_vector (N := Toy.normalizer) Toy.far_tfidf "zz"
  = inr [0; 0]%R.
Proof. reflexivity. Qed.

(** The one stored vector of the example is at least 100 away from the
    zero vector. *)
Lemma far_stored_vector :
  exists diff,
    np_sub [0; ln (IZR (10 ^ 50 + 1) / 1) * (1 / 1)]%R [0; 0]%R = inr diff /\
    (100 <= np_linalg_norm diff)%R.
Proof.
  eexists. split.
  - unfold np_sub. cbn [length Nat.eqb combine map fst snd]. reflexivity.
  - exact far_distance.
Qed.

(** C9: for every non-empty document store and every query text, if the
    Euclidean distance between the query vector and every stored document
    vector is at least 100, [search] returns 'no document found': the
    running minimum starts at 100 and only a strictly smaller distance
    replaces it. *)
Theorem search_beyond_100 :
  forall {N : TextNormalizer} (self : Tfidf) (text : string)
         (verbose : bool) (q : list R),
  indexed_documents self <> [] ->
  create_word_vector self text = inr q ->
  (forall key value, In (key, value) (indexed_documents self) ->
     exists diff,
       np_sub value q = inr diff /\ (100 <= np_linalg_norm diff)%R) ->
  search_scan self text = inr (no_document_found, 100%R) /\
  search self text verbose = inr no_document_found.
Proof.
  intros N self text verbose q _ Hq Hfar.
  assert (Hscan : search_scan self text = inr (no_document_found, 100%R)).
  { unfold search_scan. rewrite Hq. simpl.
    apply scan_keeps_best. intros [key value] Hin. apply (Hfar _ _ Hin). }
  split; [exact Hscan |].
  unfold search. rewrite Hscan. reflexivity.
Qed.

(** One stored document at distance [ln (10^50 + 1)] of the query 'zz' *)
Lemma search_beyond_100_witness :
  indexed_documents Toy.far_tfidf <> [] /\
  create_word_vector (N := Toy.normalizer) Toy.far_tfidf "zz"
  = inr [0; 0]%R /\
  search (N := Toy.normalizer) Toy.far_tfidf "zz" true
  = inr no_document_found.
Proof.
  assert (Hne : indexed_documents Toy.far_tfidf <> []) by discriminate.
  split; [exact Hne |]. split; [exact far_query |].
  apply (@search_beyond_100 Toy.normalizer Toy.far_tfidf "zz"%string true
           [0; 0]%R Hne far_query).
  intros key value [Hin | []].
  apply pair_equal_spec in Hin. destruct Hin as [_ <-].
  exact far_stored_vector.
Defined.

(** C2, the code at the failing input: the store holds exactly the document
    'doc', the query 'zz' has one surviving token, and [search] returns
    'no document found' instead of 'doc'. *)
Theorem single_document_not_returned :
  Tfidf_init (N := Toy.normalizer) Toy.far_spider "new"
    (Some [("doc", "bb")]%string) = inr Toy.far_tfidf /\
  Dict.keys (indexed_documents Toy.far_tfidf) = ["doc"%string] /\
  folded_terms (N := Toy.normalizer) (spider Toy.far_tfidf) "zz"
  = ["zz"%string] /\
  search (N := Toy.normalizer) Toy.far_tfidf "zz" true
  = inr no_document_found.
Proof.
  split; [exact far_tfidf_built |].
  split; [reflexivity |]. split; [reflexivity |].
  unfold search, search_scan. rewrite far_query.
  unfold bind at 2. rewrite scan_keeps_best; [reflexivity |].
  intros kv [<- | []]. exact far_stored_vector.
Qed.

(** C3, the code at the failing input: [Spider(language='french')]
    returns a spider without a stemmer and raises nothing, while
    [Tfidf(..., index_documents='overwrite')] raises. *)
Theorem unknown_language_accepted :
  Spider_init (N := Toy.normalizer) "data" "txt" "french"
  = inr {| corpus := "data";
           file_type := "txt";
           content := [];
           term_index := [];
           stopwords := ["le"; "la"; "et"]%string;
           language := "french";
           stemmer := None |} /\
  Tfidf_init (N := Toy.normalizer) Toy.indexed_spider "overwrite"
    (Some (content Toy.indexed_spider))
  = inl (Exception_ "Unknown input for index_documents:overwrite.").
Proof.
  split; [reflexivity |].
  unfold Tfidf_init.
  rewrite init_term_frequency_inr;
    [| apply wfb_sound; reflexivity
     | apply counts_at_leastb_sound; reflexivity].
  reflexivity.
Qed.

(** C7, the code at the failing input: [Spider(language='french')] is
    accepted without a stemmer (the defect of C3), [Tfidf(spider)] over it
    has an empty document store, and [search] on a query with a surviving
    token raises [AttributeError] instead of returning
    'no document found'. *)
Theorem search_without_stemmer :
  exists sp self,
    Spider_init (N := Toy.normalizer) "data" "txt" "french" = inr sp /\
    Tfidf_init (N := Toy.normalizer) sp "same" None = inr self /\
    indexed_documents self = [] /\
    search (N := Toy.normalizer) self "bonjour le monde" true
    = inl AttributeError.
Proof.
  eexists. eexists. split; [reflexivity |]. split; [reflexivity |].
  split; reflexivity.
Qed.

(** * Further properties of the code *)

(** ** The sorted view of the term index *)

Lemma insert_desc_sorted : forall x l,
  StronglySorted (fun a b => (snd b <= snd a)%Z) l ->
  StronglySorted (fun a b => (snd b <= snd a)%Z) (insert_desc x l).
Proof.
  induction l as [| y l IH]; intros Hs; simpl.
  - repeat constructor.
  - inversion Hs as [| ? ? Hs' Hall]; subst.
    destruct (Z.ltb_spec (snd x) (snd y)) as [Hlt | Hge].
    + constructor; [apply IH; assumption |].
      apply Forall_forall. intros z Hz.
      apply (Permutation_in _ (insert_desc_perm x l)) in Hz.
      destruct Hz as [<- | Hz]; [lia |].
      rewrite Forall_forall in Hall. apply Hall. assumption.
    + constructor; [assumption |].
      constructor; [assumption |].
      apply Forall_forall. intros z Hz.
      rewrite Forall_forall in Hall. specialize (Hall z Hz). lia.
Qed.

Lemma sorted_desc_sorted : forall l,
  StronglySorted (fun a b => (snd b <= snd a)%Z) (sorted_desc l).
Proof.
  induction l as [| x l IH]; simpl.
  - constructor.
  - apply insert_desc_sorted. assumption.
Qed.

Lemma insert_desc_filter : forall (c : Z) x l,
  filter (fun kv => (snd kv =? c)%Z) (insert_desc x l) =
  filter (fun kv => (snd kv =? c)%Z) (x :: l).
Proof.
  induction l as [| y l IH]; simpl.
  - reflexivity.
  - destruct (Z.ltb_spec (snd x) (snd y)) as [Hlt | Hge]; simpl.
    + rewrite IH. simpl.
      destruct (Z.eqb_spec (snd y) c) as [Ey | Ey];
        destruct (Z.eqb_spec (snd x) c) as [Ex | Ex];
        try reflexivity. lia.
    + reflexivity.
Qed.

(** X1: on a well-formed table, [get_index_list(sort=True)] lists exactly
    the (count, term) pairs of the table, by non-increasing count;
    [get_index_dictionary(sort=True)] binds every term as the table does. *)
Theorem sorted_index_is_descending : forall self : Spider,
  Dict.wf (term_index self) ->
  (forall k, Dict.get (get_index_dictionary self true) k =
             Dict.get (term_index self) k) /\
  (forall c k, In (c, k) (get_index_list self true) <->
               Dict.get (term_index self) k = Some c) /\
  StronglySorted (fun a b => (fst b <= fst a)%Z) (get_index_list self true).
Proof.
  intros self Hwf.
  destruct (sorted_dictionary _ Hwf) as (Hwfs & Hperm & Hget & Hsum).
  assert (Hsd : get_index_dictionary self true
                = sorted_desc (term_index self)).
  { unfold get_index_dictionary, Dict.items. apply of_items_wf.
    apply (wf_perm (Permutation_sym (sorted_desc_perm _)) Hwf). }
  split; [exact Hget |]. split.
  - intros c k. unfold get_index_list, Dict.items. rewrite in_map_iff.
    split.
    + intros ([k' c'] & [= <- <-] & Hin). rewrite <- Hget.
      apply in_get_some; assumption.
    + intros H. exists (k, c). split; [reflexivity |].
      apply get_some_in. rewrite Hget. assumption.
  - unfold get_index_list, Dict.items. rewrite Hsd.
    generalize (sorted_desc_sorted (term_index self)).
    generalize (sorted_desc (term_index self)) as l.
    induction l as [| a l IH]; intros Hs; simpl.
    + constructor.
    + inversion Hs as [| ? ? Hs' Hall]; subst.
      constructor; [apply IH; assumption |].
      apply Forall_forall. intros z Hz. apply in_map_iff in Hz.
      destruct Hz as (b & <- & Hb). simpl.
      rewrite Forall_forall in Hall. apply (Hall b Hb).
Qed.

Lemma sorted_index_is_descending_witness :
  Dict.wf (term_index Toy.indexed_spider) /\
  get_index_list Toy.indexed_spider true
  = [(2, "cat"); (2, "ran"); (1, "sat"); (1, "dog"); (1, "gpu");
     (1, "card")]%Z%string /\
  StronglySorted (fun a b => (fst b <= fst a)%Z)
    (get_index_list Toy.indexed_spider true).
Proof.
  assert (Hwf : Dict.wf (term_index Toy.indexed_spider))
    by (apply wfb_sound; reflexivity).
  split; [exact Hwf |]. split; [reflexivity |].
  exact (proj2 (proj2 (@sorted_index_is_descending Toy.indexed_spider Hwf))).
Defined.

(** X2: the sort is stable: the terms of one count come out of
    [get_index_dictionary(sort=True)] in the order the table holds them, so
    equal counts keep their first-seen order in the vocabulary. *)
Theorem sorted_index_is_stable : forall (self : Spider) (c : Z),
  Dict.wf (term_index self) ->
  filter (fun kv => (snd kv =? c)%Z) (get_index_dictionary self true) =
  filter (fun kv => (snd kv =? c)%Z) (term_index self).
Proof.
  intros self c Hwf.
  assert (Hsd : get_index_dictionary self true
                = sorted_desc (term_index self)).
  { unfold get_index_dictionary, Dict.items. apply of_items_wf.
    apply (wf_perm (Permutation_sym (sorted_desc_perm _)) Hwf). }
  rewrite Hsd. clear.
  induction (term_index self) as [| x l IH]; simpl; [reflexivity |].
  rewrite insert_desc_filter. simpl. rewrite IH. reflexivity.
Qed.

Lemma sorted_index_is_stable_witness :
  Dict.wf (term_index Toy.indexed_spider) /\
  Dict.keys (filter (fun kv => (snd kv =? 1)%Z)
               (get_index_dictionary Toy.indexed_spider true))
  = ["sat"; "dog"; "gpu"; "card"]%string.
Proof.
  assert (Hwf : Dict.wf (term_index Toy.indexed_spider))
    by (apply wfb_sound; reflexivity).
  split; [exact Hwf |].
  rewrite (@sorted_index_is_stable Toy.indexed_spider 1%Z Hwf).
  reflexivity.
Defined.

(** ** Counting with [add_new_token] *)

Section CountLemmas.
Context {N : TextNormalizer}.

Lemma occurrences_cons : forall k x l,
  occurrences k (x :: l) =
  ((if String.eqb x k then 1 else 0) + occurrences k l)%Z.
Proof.
  intros k x l. unfold occurrences.
  destruct (String.eqb_spec x k) as [-> | Hne].
  - rewrite count_occ_cons_eq by reflexivity. lia.
  - rewrite count_occ_cons_neq by assumption. lia.
Qed.

Lemma occurrences_nonneg : forall k l, (0 <= occurrences k l)%Z.
Proof. intros. unfold occurrences. lia. Qed.

Lemma occurrences_app : forall k l1 l2,
  occurrences k (l1 ++ l2) = (occurrences k l1 + occurrences k l2)%Z.
Proof. intros. unfold occurrences. rewrite count_occ_app. lia. Qed.

Lemma occurrences_zero : forall k l,
  occurrences k l = 0%Z <-> ~ In k l.
Proof.
  intros k l. unfold occurrences.
  rewrite (count_occ_not_In string_dec). lia.
Qed.

Lemma count_after_zero : forall cv b, count_after cv b 0 = b.
Proof.
  intros cv [c |]; simpl; [f_equal; lia | reflexivity].
Qed.

Lemma count_after_add : forall cv b n1 n2,
  (0 <= n1)%Z -> (0 <= n2)%Z ->
  count_after cv (count_after cv b n1) n2 = count_after cv b (n1 + n2).
Proof.
  intros cv [c |] n1 n2 H1 H2; unfold count_after.
  - f_equal. ring.
  - destruct (Z.eqb_spec n1 0) as [-> | Hne].
    + reflexivity.
    + destruct (Z.eqb_spec (n1 + n2) 0); [lia |]. f_equal. ring.
Qed.

Lemma folded_cons : forall sw st token tokens,
  folded sw st (token :: tokens) =
  match st with
  | Some s =>
      if survives sw token then stem s token :: folded sw st tokens
      else folded sw st tokens
  | None => []
  end.
Proof.
  intros sw [s |] token tokens; simpl; [| reflexivity].
  destruct (survives sw token); reflexivity.
Qed.

(** The loop of [add_new_token], term by term *)
Lemma add_tokens_count : forall sw st cv tokens ti ti',
  foldM (add_token sw st cv) tokens ti = inr ti' ->
  forall k,
    Dict.get ti' k =
    count_after cv (Dict.get ti k) (occurrences k (folded sw st tokens)).
Proof.
  induction tokens as [| token tokens IH]; intros ti ti' H k; simpl in H.
  - injection H as <-.
    replace (occurrences k (folded sw st [])) with 0%Z
      by (destruct st; reflexivity).
    rewrite count_after_zero. reflexivity.
  - apply bind_inr in H. destruct H as (t1 & H1 & H2).
    rewrite (IH _ _ H2 k). clear IH H2.
    apply add_token_inr in H1. rewrite folded_cons.
    destruct H1 as [[E ->] | [E (s & -> & ->)]].
    + destruct st; rewrite ?E; reflexivity.
    + rewrite E, occurrences_cons, get_set.
      pose proof (occurrences_nonneg k
                    (folded sw (Some s) tokens)) as Hn.
      destruct (String.eqb_spec (stem s token) k) as [<- | Hne].
      * destruct (Dict.get ti (stem s token)) as [c |];
          unfold count_after.
        -- f_equal. ring.
        -- destruct (Z.eqb_spec
                       (1 + occurrences (stem s token)
                              (folded sw (Some s) tokens)) 0); [lia |].
           destruct (Z.eqb_spec
                       (occurrences (stem s token)
                          (folded sw (Some s) tokens)) 0) as [-> | _];
             f_equal; ring.
      * reflexivity.
Qed.

Lemma sum_values_set : forall (ti : dict Z) k v,
  sum_values (Dict.set ti k v) =
  (sum_values ti + v -
   match Dict.get ti k with Some c => c | None => 0 end)%Z.
Proof.
  intros ti k v. rewrite !sum_values_total. unfold Dict.values.
  induction ti as [| [k0 v0] ti IH]; simpl.
  - lia.
  - destruct (String.eqb k0 k); simpl; [lia | rewrite IH; lia].
Qed.

(** With increment 1 every folded token adds 1 to the total. *)
Lemma add_tokens_sum : forall sw st tokens ti ti',
  foldM (add_token sw st 1%Z) tokens ti = inr ti' ->
  sum_values ti' =
  (sum_values ti + Z.of_nat (length (folded sw st tokens)))%Z.
Proof.
  induction tokens as [| token tokens IH]; intros ti ti' H; simpl in H.
  - injection H as <-. destruct st; simpl; lia.
  - apply bind_inr in H. destruct H as (t1 & H1 & H2).
    rewrite (IH _ _ H2). clear IH H2.
    apply add_token_inr in H1. rewrite folded_cons.
    destruct H1 as [[E ->] | [E (s & -> & ->)]].
    + destruct st; rewrite ?E; simpl; lia.
    + rewrite E, sum_values_set. cbn [length].
      destruct (Dict.get ti (stem s token)); lia.
Qed.

(** Without a stemmer the loop raises at the first surviving token. *)
Lemma add_tokens_no_stemmer : forall sw cv tokens ti,
  filter (survives sw) tokens <> [] ->
  foldM (add_token sw None cv) tokens ti = inl AttributeError.
Proof.
  induction tokens as [| token tokens IH]; intros ti H; simpl in *.
  - contradiction.
  - unfold add_token at 1.
    destruct (survives sw token); simpl; [reflexivity |].
    apply IH. assumption.
Qed.

Lemma set_term_index_same : forall self : Spider,
  set_term_index self (term_index self) = self.
Proof. intros []. reflexivity. Qed.

Lemma add_new_token_shape : forall self content cv self',
  add_new_token self content cv = inr self' ->
  self' = set_term_index self (term_index self').
Proof.
  intros self content cv self' H. unfold add_new_token in H.
  apply bind_inr in H. destruct H as (ti & _ & H).
  injection H as <-. reflexivity.
Qed.

Lemma add_many_shape : forall cv contents s0 s1,
  foldM (fun s c => add_new_token s c cv) contents s0 = inr s1 ->
  s1 = set_term_index s0 (term_index s1).
Proof.
  intros cv contents s0 s1 H.
  refine (@foldM_invariant _ _ _
            (fun s => s = set_term_index s0 (term_index s))
            contents s0 s1 _ _ H).
  - intros s c s' _ Hs Hstep. apply add_new_token_shape in Hstep.
    rewrite Hstep at 1. rewrite Hs. reflexivity.
  - symmetry. apply set_term_index_same.
Qed.

Lemma add_many_count : forall cv contents s0 s1,
  foldM (fun s c => add_new_token s c cv) contents s0 = inr s1 ->
  forall k,
    Dict.get (term_index s1) k =
    count_after cv (Dict.get (term_index s0) k)
      (occurrences k (flat_map (folded_terms s0) contents)).
Proof.
  induction contents as [| c contents IH]; intros s0 s1 H k; simpl in H.
  - injection H as <-. simpl.
    replace (occurrences k []) with 0%Z by reflexivity.
    rewrite count_after_zero. reflexivity.
  - apply bind_inr in H. destruct H as (s' & H1 & H2).
    apply add_new_token_inr in H1. destruct H1 as [Hsame Hfold].
    rewrite (IH _ _ H2 k). rewrite (add_tokens_count _ _ _ _ _ Hfold k).
    fold (folded_terms s0 c).
    rewrite count_after_add by apply occurrences_nonneg.
    simpl. rewrite occurrences_app.
    assert (E : flat_map (folded_terms s') contents =
                flat_map (folded_terms s0) contents).
    { clear - Hsame. induction contents as [| c0 l IHl]; simpl.
      - reflexivity.
      - rewrite (folded_terms_same c0 Hsame), IHl. reflexivity. }
    rewrite E. reflexivity.
Qed.

End CountLemmas.

(** X3: [add_new_token(content, count_value)] changes the term index and
    nothing else of the spider; a term bound to [c] that is folded [n] times
    ends at [c + count_value * n], an absent term folded [n >= 1] times ends
    at [1 + count_value * (n - 1)], and every other term stays as it is. *)
Theorem add_new_token_counts :
  forall {N : TextNormalizer} (self : Spider) (content : string) (cv : Z)
         (self' : Spider),
  add_new_token self content cv = inr self' ->
  self' = set_term_index self (term_index self') /\
  forall k,
    Dict.get (term_index self') k =
    count_after cv (Dict.get (term_index self) k)
      (occurrences k (folded_terms self content)).
Proof.
  intros N self content cv self' H. split.
  - apply (add_new_token_shape _ _ _ H).
  - intros k. apply add_new_token_inr in H. destruct H as [_ H].
    apply (add_tokens_count _ _ _ _ _ H k).
Qed.

Lemma add_new_token_counts_witness :
  exists self',
    add_new_token (N := Toy.normalizer) Toy.indexed_spider
      "cat bird the bird cat" 2%Z = inr self' /\
    Dict.get (term_index self') "cat" = Some 6%Z /\
    Dict.get (term_index self') "bird" = Some 3%Z /\
    Dict.get (term_index self') "dog" = Some 1%Z.
Proof.
  eexists. split; [reflexivity |].
  pose proof (proj2 (@add_new_token_counts Toy.normalizer
                       Toy.indexed_spider "cat bird the bird cat"%string
                       2%Z _ eq_refl)) as H.
  split; [exact (H "cat"%string) |].
  split; [exact (H "bird"%string) | exact (H "dog"%string)].
Defined.

(** X4: on a spider without a stemmer (a language other than 'german' and
    'english'), [add_new_token] leaves the spider as it is when no token
    passes the length and stop-word test, and raises [AttributeError] as
    soon as one does. *)
Theorem add_new_token_without_stemmer :
  forall {N : TextNormalizer} (self : Spider) (content : string) (cv : Z),
  stemmer self = None ->
  let survivors :=
    filter (survives (stopwords self))
      (word_tokenize content (language self)) in
  (survivors = [] -> add_new_token self content cv = inr self) /\
  (survivors <> [] -> add_new_token self content cv = inl AttributeError).
Proof.
  intros N self content cv Hst survivors. unfold add_new_token.
  rewrite Hst. split; intros H.
  - rewrite add_tokens_none_survive by exact H. simpl.
    rewrite set_term_index_same. reflexivity.
  - rewrite add_tokens_no_stemmer by exact H. reflexivity.
Qed.

Lemma add_new_token_without_stemmer_witness :
  let self := {| corpus := "data";
                 file_type := "txt";
                 content := [];
                 term_index := [];
                 stopwords := ["le"; "la"; "et"]%string;
                 language := "french";
                 stemmer := None |} in
  Spider_init (N := Toy.normalizer) "data" "txt" "french" = inr self /\
  add_new_token (N := Toy.normalizer) self "le a et la" 1%Z = inr self /\
  add_new_token (N := Toy.normalizer) self "le monde" 1%Z
  = inl AttributeError.
Proof.
  intros self. split; [reflexivity |]. split.
  - apply (proj1 (@add_new_token_without_stemmer Toy.normalizer self
                    "le a et la"%string 1%Z eq_refl)).
    reflexivity.
  - apply (proj2 (@add_new_token_without_stemmer Toy.normalizer self
                    "le monde"%string 1%Z eq_refl)).
    discriminate.
Defined.

Lemma generate_term_index_shape :
  forall {N : TextNormalizer} self seeds self',
  generate_term_index self seeds = inr self' ->
  self' = set_term_index self (term_index self').
Proof.
  intros N self seeds self' H.
  apply generate_term_index_inr in H. destruct H as (mid & H1 & H2).
  apply add_many_shape in H1. apply add_many_shape in H2.
  rewrite H2 at 1. rewrite H1. destruct self. reflexivity.
Qed.

(** X5: [generate_term_index] rebuilds the index from the content alone:
    it changes nothing but the term index, and running it again on its own
    result gives that result again (counts do not accumulate). *)
Theorem generate_term_index_idempotent :
  forall {N : TextNormalizer} (self : Spider)
         (seeds : option (list string)) (self' : Spider),
  generate_term_index self seeds = inr self' ->
  self' = set_term_index self (term_index self') /\
  generate_term_index self' seeds = inr self'.
Proof.
  intros N self seeds self' H.
  pose proof (generate_term_index_shape _ _ H) as Hshape.
  split; [exact Hshape |].
  rewrite <- H. rewrite Hshape at 1.
  unfold generate_term_index. destruct self. reflexivity.
Qed.

Lemma generate_term_index_idempotent_witness :
  generate_term_index (N := Toy.normalizer) Toy.corpus_spider
    (Some Toy.seeds) = inr Toy.indexed_spider /\
  generate_term_index (N := Toy.normalizer) Toy.indexed_spider
    (Some Toy.seeds) = inr Toy.indexed_spider.
Proof.
  split; [reflexivity |].
  exact (proj2 (@generate_term_index_idempotent Toy.normalizer
                  Toy.corpus_spider (Some Toy.seeds) Toy.indexed_spider
                  eq_refl)).
Defined.

(** X6: after [generate_term_index], a term that the corpus documents fold
    [n >= 1] times has count [n]; a term folded from no document has count 1
    when some seed folds it and is absent otherwise. *)
Theorem generate_term_index_counts_occurrences :
  forall {N : TextNormalizer} (self : Spider)
         (seeds : option (list string)) (self' : Spider),
  generate_term_index self seeds = inr self' ->
  forall k,
    Dict.get (term_index self') k =
    let n := occurrences k
               (flat_map (folded_terms self) (map snd (content self))) in
    if (n =? 0)%Z then
      if existsb (fun seed => str_in k (folded_terms self seed))
           (match seeds with Some terms => terms | None => [] end)
      then Some 1%Z else None
    else Some n.
Proof.
  intros N self seeds self' H k.
  apply generate_term_index_inr in H. destruct H as (mid & H1 & H2).
  assert (Hsame : same_setup mid self)
    by exact (add_many_setup _ _ _ H1).
  assert (Hmid : Dict.get (term_index mid) k =
                 count_after 1 None
                   (occurrences k
                      (flat_map (folded_terms self)
                         (map snd (content self)))))
    by exact (add_many_count _ _ _ H1 k).
  rewrite (add_many_zero _ _ H2 k), Hmid.
  cbv zeta. unfold count_after.
  destruct (Z.eqb_spec
              (occurrences k
                 (flat_map (folded_terms self) (map snd (content self))))
              0) as [_ | _].
  - assert (E : forall l,
              existsb (fun c => str_in k (folded_terms mid c)) l =
              existsb (fun c => str_in k (folded_terms self c)) l).
    { induction l as [| c0 l IHl]; simpl; [reflexivity |].
      rewrite IHl.
      rewrite (folded_terms_same c0 Hsame).
      reflexivity. }
    rewrite E. reflexivity.
  - f_equal. ring.
Qed.

Lemma generate_term_index_counts_occurrences_witness :
  generate_term_index (N := Toy.normalizer) Toy.corpus_spider
    (Some Toy.seeds) = inr Toy.indexed_spider /\
  Dict.get (term_index Toy.indexed_spider) "ran" = Some 2%Z /\
  Dict.get (term_index Toy.indexed_spider) "card" = Some 1%Z /\
  Dict.get (term_index Toy.indexed_spider) "the" = None.
Proof.
  split; [reflexivity |].
  pose proof (@generate_term_index_counts_occurrences Toy.normalizer
                Toy.corpus_spider (Some Toy.seeds) Toy.indexed_spider
                eq_refl) as H.
  split; [exact (H "ran"%string) |].
  split; [exact (H "card"%string) | exact (H "the"%string)].
Defined.

(** X7: with increment 1, [add_new_token] raises the sum of all counts by
    the number of tokens it folds: every surviving token adds exactly one
    to the total mass, whether its term is new or known. *)
Theorem add_new_token_total_mass :
  forall {N : TextNormalizer} (self : Spider) (content : string)
         (self' : Spider),
  add_new_token self content 1%Z = inr self' ->
  sum_values (term_index self') =
  (sum_values (term_index self)
   + Z.of_nat (length (folded_terms self content)))%Z.
Proof.
  intros N self content self' H.
  apply add_new_token_inr in H. destruct H as [_ H].
  apply (add_tokens_sum _ _ _ _ H).
Qed.

Lemma add_new_token_total_mass_witness :
  exists self',
    add_new_token (N := Toy.normalizer) Toy.indexed_spider
      "the cat saw a bird and a bird" 1%Z = inr self' /\
    sum_values (term_index self') = 12%Z.
Proof.
  eexists. split; [reflexivity |].
  exact (@add_new_token_total_mass Toy.normalizer Toy.indexed_spider
           "the cat saw a bird and a bird"%string _ eq_refl).
Defined.

(** ** The coordinates of a vector *)

Section CoordinateLemmas.
Context {N : TextNormalizer}.




(** A vector that [create_word_vector] returns has the length of the
    vocabulary. *)
Lemma create_word_vector_length : forall self text v,
  create_word_vector self text = inr v ->
  length v = length (word_vector self).
Proof.
  intros self text v H. apply create_word_vector_inr in H.
  destruct H as (sp0 & sp1 & _ & _ & Hloop).
  refine (@foldM_invariant _ _ _
            (fun u => length u = length (word_vector self))
            _ _ _ _ _ Hloop).
  - intros u t u' _ Hu Hstep. apply vector_step_inr in Hstep.
    destruct Hstep as [-> | (i & w & c & _ & _ & _ & _ & Hset)];
      [assumption |].
    rewrite (np_setitem_length _ _ _ Hset). assumption.
  - apply np_zeros_length.
Qed.


End CoordinateLemmas.


(** ** The document store *)

Section StoreContents.
Context {N : TextNormalizer}.

Lemma create_word_vector_frame : forall (a b : Tfidf) (text : string),
  spider a = spider b -> idf a = idf b -> word_vector a = word_vector b ->
  create_word_vector a text = create_word_vector b text.
Proof.
  intros a b text Hsp Hidf Hwv. unfold create_word_vector.
  rewrite Hsp, Hwv.
  destruct (Spider_init "data" "txt" (language (spider b))) as [e | sp0];
    simpl; [reflexivity |].
  destruct (add_new_token sp0 text 1%Z) as [e | sp1]; simpl;
    [reflexivity |].
  apply vector_loop_ext; assumption.
Qed.

Lemma get_update : forall (V : Type) (b a : dict V) (k : string),
  Dict.wf b ->
  Dict.get (Dict.update a b) k =
  match Dict.get b k with
  | Some v => Some v
  | None => Dict.get a k
  end.
Proof.
  intros V. unfold Dict.update.
  induction b as [| [k0 v0] b IH]; intros a k Hwf; simpl.
  - reflexivity.
  - inversion Hwf as [| ? ? Hnotin Hwf']; subst.
    rewrite (IH _ _ Hwf'). simpl. rewrite get_set.
    destruct (String.eqb_spec k0 k) as [<- | Hne].
    + assert (E : Dict.get b k0 = None)
        by (apply get_none_keys; assumption).
      rewrite E. reflexivity.
    + reflexivity.
Qed.

Lemma wf_update : forall (V : Type) (b a : dict V),
  Dict.wf a -> Dict.wf (Dict.update a b).
Proof.
  intros V. unfold Dict.update.
  induction b as [| [k0 v0] b IH]; intros a Hwf; simpl.
  - assumption.
  - apply IH. apply wf_set. assumption.
Qed.

Lemma keys_set_absent : forall (V : Type) (d : dict V) k (v : V),
  ~ In k (Dict.keys d) -> Dict.keys (Dict.set d k v) = Dict.keys d ++ [k].
Proof.
  intros V d k v H. rewrite set_absent by assumption.
  unfold Dict.keys. rewrite map_app. reflexivity.
Qed.

(** The loop of [insert_documents], key by key *)
Lemma insert_loop_store : forall (items : dict string) (self self' : Tfidf),
  Dict.wf items ->
  foldM (fun self kv =>
           document_word_vector <- create_word_vector self (snd kv) ;;
           ret {| spider := spider self;
                  idf := idf self;
                  indexed_documents :=
                    Dict.set (indexed_documents self) (fst kv)
                      document_word_vector;
                  word_vector := word_vector self |})
    items self = inr self' ->
  (forall key,
     match Dict.get items key with
     | Some text =>
         exists v, create_word_vector self text = inr v /\
                   Dict.get (indexed_documents self') key = Some v
     | None =>
         Dict.get (indexed_documents self') key =
         Dict.get (indexed_documents self) key
     end) /\
  ((forall k, In k (Dict.keys items) ->
      ~ In k (Dict.keys (indexed_documents self))) ->
   Dict.keys (indexed_documents self') =
   Dict.keys (indexed_documents self) ++ Dict.keys items).
Proof.
  induction items as [| [k0 t0] items IH]; intros self self' Hwf H;
    simpl in H.
  - injection H as <-. split; [intros key; reflexivity |].
    intros _. simpl. rewrite app_nil_r. reflexivity.
  - inversion Hwf as [| ? ? Hnotin Hwf']; subst.
    apply bind_inr in H. destruct H as (s1 & H1 & H2).
    apply bind_inr in H1. destruct H1 as (v0 & Hv0 & Hs1).
    injection Hs1 as <-. simpl in Hv0.
    destruct (IH _ _ Hwf' H2) as [IHget IHkeys]. clear IH.
    split.
    + intros key. specialize (IHget key). simpl in *.
      destruct (String.eqb_spec k0 key) as [<- | Hne].
      * assert (E : Dict.get items k0 = None)
          by (apply get_none_keys; assumption).
        rewrite E in IHget. exists v0. split; [assumption |].
        rewrite IHget. simpl. apply get_set_same.
      * destruct (Dict.get items key) as [text |].
        -- destruct IHget as (v & Hv & Hget). exists v.
           split; [| assumption].
           rewrite <- Hv. symmetry.
           apply create_word_vector_frame; reflexivity.
        -- rewrite IHget. simpl. apply get_set_other. assumption.
    + intros Hfresh. simpl in *.
      assert (Hk0 : ~ In k0 (Dict.keys (indexed_documents self)))
        by (apply Hfresh; left; reflexivity).
      rewrite IHkeys.
      * simpl. rewrite keys_set_absent by assumption.
        rewrite <- app_assoc. reflexivity.
      * intros k Hk. simpl. rewrite keys_set_absent by assumption.
        intros Hin. apply in_app_or in Hin.
        destruct Hin as [Hin | [<- | []]].
        -- apply (Hfresh k); [right |]; assumption.
        -- contradiction.
Qed.

End StoreContents.

(** X9: [insert_documents] keeps the spider, the weights and the
    vocabulary; afterwards the store binds every inserted identifier to the
    vector of its text, replacing a vector stored before under that
    identifier, and binds every other identifier as before. *)
Theorem insert_documents_store :
  forall {N : TextNormalizer} (self : Tfidf) (content : dict string)
         (self' : Tfidf),
  Dict.wf content ->
  insert_documents self (Some content) = inr self' ->
  (spider self' = spider self /\ idf self' = idf self /\
   word_vector self' = word_vector self) /\
  forall key,
    match Dict.get content key with
    | Some text =>
        exists v, create_word_vector self text = inr v /\
                  Dict.get (indexed_documents self') key = Some v
    | None =>
        Dict.get (indexed_documents self') key =
        Dict.get (indexed_documents self) key
    end.
Proof.
  intros N self content self' Hwf H.
  split; [apply (insert_documents_frame _ _ H) |].
  unfold insert_documents in H. simpl in H.
  apply (proj1 (@insert_loop_store N content self self' Hwf H)).
Qed.

Lemma insert_documents_store_witness :
  Dict.wf [("doc2", "a cat"); ("doc9", "the dog")]%string /\
  exists self',
    insert_documents (N := Toy.normalizer) Toy.indexed_tfidf
      (Some [("doc2", "a cat"); ("doc9", "the dog")]%string) = inr self' /\
    Dict.get (indexed_documents self') "doc2"
    = Some [ln (8 / 2) * (1 / 1); 0; 0; 0; 0; 0]%R /\
    Dict.get (indexed_documents self') "doc1"
    = Dict.get (indexed_documents Toy.indexed_tfidf) "doc1".
Proof.
  assert (Hwf : Dict.wf [("doc2", "a cat"); ("doc9", "the dog")]%string)
    by (apply wfb_sound; reflexivity).
  split; [exact Hwf |].
  eexists. split; [reflexivity |].
  pose proof (proj2 (@insert_documents_store Toy.normalizer
                       Toy.indexed_tfidf _ _ Hwf eq_refl)) as H.
  split.
  - destruct (H "doc2"%string) as (v & Hv & Hget).
    rewrite Hget. f_equal.
    assert (E : inr v = inr [ln (8 / 2) * (1 / 1); 0; 0; 0; 0; 0]%R
                :> Py (list R))
      by (rewrite <- Hv; reflexivity).
    apply (f_equal (fun r => match r with inr u => u | inl _ => v end)) in E.
    exact E.
  - exact (H "doc1"%string).
Defined.

(** X10: a [Tfidf] that [Tfidf.__init__] returns stores one vector per
    document of the mapping its policy selects, under the same identifiers
    in the same order: the spider's content for 'same', the new documents
    for 'new', and for 'add' the spider's content updated with the new
    documents, a new document replacing a crawled one of the same
    identifier.  Each stored vector is the vector of the document's text. *)
Theorem Tfidf_init_store :
  forall {N : TextNormalizer} (sp : Spider) (policy : string)
         (docs : option (dict string)) (self : Tfidf),
  Dict.wf (content sp) ->
  (forall d, docs = Some d -> Dict.wf d) ->
  Tfidf_init sp policy docs = inr self ->
  exists documents : dict string,
    ((policy = "same"%string /\ documents = content sp) \/
     (policy = "new"%string /\ docs = Some documents) \/
     (policy = "add"%string /\
      exists d, docs = Some d /\
        documents = Dict.update (content sp) d /\
        forall key,
          Dict.get documents key =
          match Dict.get d key with
          | Some text => Some text
          | None => Dict.get (content sp) key
          end)) /\
    Dict.keys (indexed_documents self) = Dict.keys documents /\
    forall key text,
      Dict.get documents key = Some text ->
      exists v, create_word_vector self text = inr v /\
                Dict.get (indexed_documents self) key = Some v.
Proof.
  intros N sp policy docs self Hwfc Hwfd H. unfold Tfidf_init in H.
  apply bind_inr in H. destruct H as (s1 & H1 & H).
  apply bind_inr in H. destruct H as (c & Hc & Hins).
  apply init_term_frequency_cover in H1.
  destruct H1 as (_ & Hstore & _). simpl in Hstore.
  assert (Hsel : exists documents,
            c = Some documents /\ Dict.wf documents /\
            ((policy = "same"%string /\ documents = content sp) \/
             (policy = "new"%string /\ docs = Some documents) \/
             (policy = "add"%string /\
              exists d, docs = Some d /\
                documents = Dict.update (content sp) d /\
                forall key,
                  Dict.get documents key =
                  match Dict.get d key with
                  | Some text => Some text
                  | None => Dict.get (content sp) key
                  end))).
  { destruct (String.eqb_spec policy "same") as [-> | _].
    - injection Hc as <-. exists (content sp).
      split; [reflexivity |]. split; [assumption |]. left. split; reflexivity.
    - destruct (String.eqb_spec policy "new") as [-> | _].
      + injection Hc as <-.
        destruct docs as [d |].
        * exists d. split; [reflexivity |].
          split; [apply Hwfd; reflexivity |].
          right. left. split; reflexivity.
        * discriminate.
      + destruct (String.eqb_spec policy "add") as [-> | _];
          [| discriminate].
        destruct docs as [d |]; [| discriminate].
        injection Hc as <-. exists (Dict.update (content sp) d).
        split; [reflexivity |].
        split; [apply wf_update; assumption |].
        right. right. split; [reflexivity |].
        exists d. split; [reflexivity |]. split; [reflexivity |].
        intros key. apply get_update. apply Hwfd. reflexivity. }
  destruct Hsel as (documents & -> & Hwf & Hsel).
  exists documents. split; [exact Hsel |].
  pose proof (insert_documents_frame _ _ Hins) as (Esp & Eidf & Ewv).
  unfold insert_documents in Hins. simpl in Hins.
  destruct (@insert_loop_store N documents s1 self Hwf Hins)
    as [Hget Hkeys].
  split.
  - rewrite Hkeys; rewrite Hstore; [reflexivity |].
    intros k _ [].
  - intros key text Hkey. specialize (Hget key). rewrite Hkey in Hget.
    destruct Hget as (v & Hv & Hg). exists v. split; [| assumption].
    rewrite <- Hv. apply create_word_vector_frame; assumption.
Qed.

Lemma Tfidf_init_store_witness :
  let docs := [("doc2", "a cat"); ("doc9", "the dog")]%string in
  Dict.wf (content Toy.indexed_spider) /\ Dict.wf docs /\
  exists self,
    Tfidf_init (N := Toy.normalizer) Toy.indexed_spider "add" (Some docs)
    = inr self /\
    Dict.keys (indexed_documents self) = ["doc1"; "doc2"; "doc9"]%string /\
    exists v,
      create_word_vector (N := Toy.normalizer) self "a cat" = inr v /\
      Dict.get (indexed_documents self) "doc2" = Some v.
Proof.
  intros docs.
  assert (Hwfc : Dict.wf (content Toy.indexed_spider))
    by (apply wfb_sound; reflexivity).
  assert (Hwfd : Dict.wf docs) by (apply wfb_sound; reflexivity).
  split; [exact Hwfc |]. split; [exact Hwfd |].
  assert (Hinit : exists self,
            Tfidf_init (N := Toy.normalizer) Toy.indexed_spider "add"
              (Some docs) = inr self).
  { unfold Tfidf_init.
    rewrite init_term_frequency_inr;
      [| apply wfb_sound; reflexivity
       | apply counts_at_leastb_sound; reflexivity].
    eexists. reflexivity. }
  destruct Hinit as (self & Hinit). exists self.
  split; [exact Hinit |].
  destruct (@Tfidf_init_store Toy.normalizer Toy.indexed_spider
              "add"%string (Some docs) self Hwfc)
    as (documents & Hsel & Hkeys & Hvec);
    [intros d Hd; apply (f_equal (fun o => match o with
                                            | Some x => x
                                            | None => d
                                            end)) in Hd;
     simpl in Hd; rewrite <- Hd; exact Hwfd
    | exact Hinit |].
  assert (Hdoc : documents = Dict.update (content Toy.indexed_spider) docs).
  { destruct Hsel as [[E _] | [[E _] | (_ & d & Hd & Hdoc & _)]];
      [discriminate E | discriminate E |].
    apply (f_equal (fun o => match o with Some x => x | None => d end))
      in Hd.
    simpl in Hd. rewrite <- Hd in Hdoc. exact Hdoc. }
  split.
  - rewrite Hkeys, Hdoc. reflexivity.
  - apply (Hvec "doc2"%string "a cat"%string).
    rewrite Hdoc. reflexivity.
Defined.

(** X11: once the weights are computed (a well-formed table of counts that
    are at least 1), [Tfidf.__init__] raises [AttributeError] for
    [index_documents='new'] without new documents, [TypeError] for 'add'
    without new documents, and for any other value than 'same', 'new' and
    'add' an [Exception] whose message names the value. *)
Theorem Tfidf_init_rejects :
  forall {N : TextNormalizer} (sp : Spider),
  Dict.wf (term_index sp) -> counts_at_least 1 (term_index sp) ->
  Tfidf_init sp "new" None = inl AttributeError /\
  Tfidf_init sp "add" None = inl TypeError /\
  forall policy docs,
    policy <> "same"%string -> policy <> "new"%string ->
    policy <> "add"%string ->
    Tfidf_init sp policy docs =
    inl (Exception_
           ("Unknown input for index_documents:" ++ policy ++ ".")).
Proof.
  intros N sp Hwf Hc. unfold Tfidf_init.
  rewrite init_term_frequency_inr by assumption. cbn [bind].
  split; [reflexivity |]. split; [reflexivity |].
  intros policy docs H1 H2 H3.
  destruct (String.eqb_spec policy "same"); [contradiction |].
  destruct (String.eqb_spec policy "new"); [contradiction |].
  destruct (String.eqb_spec policy "add"); [contradiction |].
  reflexivity.
Qed.

(** The call of main.py: [index_documents='overwrite']. *)
Lemma Tfidf_init_rejects_witness :
  Dict.wf (term_index Toy.indexed_spider) /\
  counts_at_least 1 (term_index Toy.indexed_spider) /\
  Tfidf_init (N := Toy.normalizer) Toy.indexed_spider "overwrite"
    (Some (content Toy.indexed_spider))
  = inl (Exception_ "Unknown input for index_documents:overwrite.").
Proof.
  assert (Hwf : Dict.wf (term_index Toy.indexed_spider))
    by (apply wfb_sound; reflexivity).
  assert (Hc : counts_at_least 1 (term_index Toy.indexed_spider))
    by (apply counts_at_leastb_sound; reflexivity).
  split; [exact Hwf |]. split; [exact Hc |].
  apply (proj2 (proj2 (@Tfidf_init_rejects Toy.normalizer
                         Toy.indexed_spider Hwf Hc)));
    discriminate.
Defined.

(** ** The scan of [search] *)

Lemma np_sub_same_length : forall v q : list R,
  length v = length q ->
  np_sub v q = inr (map (fun p => (fst p - snd p)%R) (combine v q)).
Proof.
  intros v q H. unfold np_sub. rewrite H, Nat.eqb_refl. reflexivity.
Qed.

Lemma sum_squares_nonneg : forall l : list R,
  (0 <= fold_right (fun x acc => x * x + acc) 0 l)%R.
Proof.
  induction l as [| x l IH]; simpl; [lra | nra].
Qed.

Lemma euclidean_nonneg : forall v q, (0 <= euclidean v q)%R.
Proof. intros. unfold euclidean, np_linalg_norm. apply sqrt_pos. Qed.

Lemma euclidean_same : forall v, euclidean v v = 0%R.
Proof.
  intros v. unfold euclidean, np_linalg_norm.
  replace (fold_right (fun x acc => (x * x + acc)%R) 0%R
             (map (fun p => (fst p - snd p)%R) (combine v v)))
    with 0%R; [apply sqrt_0 |].
  induction v as [| x v IH]; simpl; [reflexivity |].
  rewrite <- IH. ring.
Qed.

Lemma euclidean_zero : forall v q,
  length v = length q -> euclidean v q = 0%R -> v = q.
Proof.
  intros v q Hlen H. unfold euclidean, np_linalg_norm in H.
  apply sqrt_eq_0 in H; [| apply sum_squares_nonneg].
  revert q Hlen H.
  induction v as [| x v IH]; intros [| y q] Hlen H; simpl in *;
    try discriminate; [reflexivity |].
  pose proof (sum_squares_nonneg
                (map (fun p => (fst p - snd p)%R) (combine v q))) as Hs.
  pose proof (Rle_0_sqr (x - y)) as Hsq. unfold Rsqr in Hsq.
  set (S := fold_right (fun x acc => (x * x + acc)%R) 0%R
              (map (fun p => (fst p - snd p)%R) (combine v q))) in *.
  assert (Hx : ((x - y) * (x - y) = 0)%R) by lra.
  assert (Hrest : S = 0%R) by lra.
  f_equal.
  - apply Rmult_integral in Hx. lra.
  - apply IH; [congruence | assumption].
Qed.

(** The scan from a running minimum [(b, bd)]: it ends on the first stored
    vector of least distance when that distance is below [bd], and on
    [(b, bd)] otherwise. *)
Lemma scan_minimum : forall (q : list R) (docs : dict (list R))
    (b : string) (bd : R),
  (forall kv, In kv docs -> length (snd kv) = length q) ->
  exists best d,
    foldM (search_step q) docs (b, bd) = inr (best, d) /\
    (d <= bd)%R /\
    (forall key v, In (key, v) docs -> (d <= euclidean v q)%R) /\
    ((best = b /\ d = bd) \/
     (exists l1 v l2,
        docs = l1 ++ (best, v) :: l2 /\ euclidean v q = d /\ (d < bd)%R /\
        forall key' v', In (key', v') l1 -> (d < euclidean v' q)%R)).
Proof.
  induction docs as [| [k0 v0] docs IH]; intros b bd Hlen; simpl.
  - exists b, bd. split; [reflexivity |]. split; [lra |].
    split; [intros key v [] |]. left. split; reflexivity.
  - assert (Hlen' : forall kv, In kv docs -> length (snd kv) = length q)
      by (intros kv Hkv; apply Hlen; right; assumption).
    unfold search_step at 1. simpl.
    rewrite np_sub_same_length
      by (apply (Hlen (k0, v0)); left; reflexivity).
    simpl. fold (euclidean v0 q).
    destruct (Rlt_dec (euclidean v0 q) bd) as [Hlt | Hge]; simpl.
    + destruct (IH k0 (euclidean v0 q) Hlen')
        as (best & d & Hscan & Hd & Hmin & Hcase).
      exists best, d. split; [exact Hscan |]. split; [lra |].
      split.
      * intros key v [[= <- <-] | Hin]; [exact Hd | apply (Hmin _ _ Hin)].
      * right. destruct Hcase as [[-> ->] | (l1 & v & l2 & E & Hv & Hdlt & Hl1)].
        -- exists [], v0, docs. split; [reflexivity |].
           split; [reflexivity |]. split; [exact Hlt |].
           intros key' v' [].
        -- exists ((k0, v0) :: l1), v, l2. rewrite E.
           split; [reflexivity |]. split; [exact Hv |]. split; [lra |].
           intros key' v' [[= <- <-] | Hin]; [lra | apply (Hl1 _ _ Hin)].
    + destruct (IH b bd Hlen')
        as (best & d & Hscan & Hd & Hmin & Hcase).
      exists best, d. split; [exact Hscan |]. split; [exact Hd |].
      split.
      * intros key v [[= <- <-] | Hin]; [lra | apply (Hmin _ _ Hin)].
      * destruct Hcase as [[-> ->] | (l1 & v & l2 & E & Hv & Hdlt & Hl1)].
        -- left. split; reflexivity.
        -- right. exists ((k0, v0) :: l1), v, l2. rewrite E.
           split; [reflexivity |]. split; [exact Hv |].
           split; [exact Hdlt |].
           intros key' v' [[= <- <-] | Hin]; [lra | apply (Hl1 _ _ Hin)].
Qed.

(** X12: when every stored vector has the length of the query vector,
    [search] raises nothing and returns the identifier of the first stored
    vector at the least Euclidean distance, provided that distance is
    below 100; otherwise (no stored vector closer than 100, or an empty
    store) it returns 'no document found'. *)
Theorem search_returns_nearest :
  forall {N : TextNormalizer} (self : Tfidf) (text : string)
         (verbose : bool) (q : list R),
  create_word_vector self text = inr q ->
  (forall key v, In (key, v) (indexed_documents self) ->
     length v = length q) ->
  exists best d,
    search_scan self text = inr (best, d) /\
    search self text verbose = inr best /\
    (forall key v, In (key, v) (indexed_documents self) ->
       (d <= euclidean v q)%R) /\
    ((best = no_document_found /\ d = 100%R) \/
     (exists l1 v l2,
        indexed_documents self = l1 ++ (best, v) :: l2 /\
        euclidean v q = d /\ (d < 100)%R /\
        forall key' v', In (key', v') l1 -> (d < euclidean v' q)%R)).
Proof.
  intros N self text verbose q Hq Hlen.
  destruct (@scan_minimum q (indexed_documents self) no_document_found
              100%R)
    as (best & d & Hscan & _ & Hmin & Hcase).
  { intros [key v] Hin. apply (Hlen key v Hin). }
  exists best, d.
  assert (Hs : search_scan self text = inr (best, d)).
  { unfold search_scan. rewrite Hq. exact Hscan. }
  split; [exact Hs |]. split.
  - unfold search. rewrite Hs. reflexivity.
  - split; [exact Hmin | exact Hcase].
Qed.

Lemma search_returns_nearest_witness :
  let q := [0; ln (8 / 2) * (1 / 2); 0; ln (8 / 1) * (1 / 2); 0; 0]%R in
  create_word_vector (N := Toy.normalizer) Toy.indexed_tfidf "the dog ran"
  = inr q /\
  exists best d,
    search (N := Toy.normalizer) Toy.indexed_tfidf "the dog ran" true
    = inr best /\
    (d <= euclidean q q)%R.
Proof.
  intros q.
  assert (Hq : create_word_vector (N := Toy.normalizer) Toy.indexed_tfidf
                 "the dog ran" = inr q) by reflexivity.
  split; [exact Hq |].
  destruct (@search_returns_nearest Toy.normalizer Toy.indexed_tfidf
              "the dog ran"%string true q Hq)
    as (best & d & _ & Hsearch & Hmin & _).
  { intros key v [Hin | [Hin | []]];
      apply pair_equal_spec in Hin; destruct Hin as [_ <-]; reflexivity. }
  exists best, d. split; [exact Hsearch |].
  apply (Hmin "doc2"%string q). right. left. reflexivity.
Defined.

Lemma in_set : forall (V : Type) (d : dict V) k0 (v0 : V) k v,
  In (k, v) (Dict.set d k0 v0) -> (k = k0 /\ v = v0) \/ In (k, v) d.
Proof.
  induction d as [| [k1 v1] d IH]; intros k0 v0 k v H; simpl in H.
  - destruct H as [[= <- <-] | []]. left. split; reflexivity.
  - destruct (String.eqb k1 k0) eqn:E.
    + apply String.eqb_eq in E. subst k1.
      destruct H as [[= <- <-] | H].
      * left. split; reflexivity.
      * right. right. assumption.
    + destruct H as [H | H].
      * right. left. assumption.
      * destruct (IH _ _ _ _ H) as [Hl | Hr];
          [left; assumption | right; right; assumption].
Qed.

(** Every vector in the store of a constructed [Tfidf] has the length of
    the vocabulary. *)
Lemma stored_vector_lengths :
  forall {N : TextNormalizer} sp policy docs self,
  Tfidf_init sp policy docs = inr self ->
  forall key v, In (key, v) (indexed_documents self) ->
    length v = length (word_vector self).
Proof.
  intros N sp policy docs self H. unfold Tfidf_init in H.
  apply bind_inr in H. destruct H as (s1 & H1 & H).
  apply bind_inr in H. destruct H as (c & _ & Hins).
  apply init_term_frequency_cover in H1.
  destruct H1 as (_ & Hstore & _). simpl in Hstore.
  unfold insert_documents in Hins.
  apply bind_inr in Hins. destruct Hins as (items & _ & Hloop).
  refine (@foldM_invariant _ _ _
            (fun s => forall key v, In (key, v) (indexed_documents s) ->
                        length v = length (word_vector s))
            items s1 self _ _ Hloop).
  - intros s kv s' _ Hs Hstep.
    apply bind_inr in Hstep. destruct Hstep as (v0 & Hv0 & Hs').
    injection Hs' as <-. simpl. intros key v Hin.
    apply in_set in Hin. destruct Hin as [[_ ->] | Hin].
    + apply (create_word_vector_length _ _ Hv0).
    + apply (Hs key v Hin).
  - rewrite Hstore. intros key v [].
Qed.

(** X13: in a [Tfidf] that [Tfidf.__init__] returned, a query whose vector
    equals a stored vector (as the text of any indexed document does) is
    answered, never with 'no document found', by the identifier of the
    first stored vector equal to the query vector. *)
Theorem search_finds_stored_vector :
  forall {N : TextNormalizer} (sp : Spider) (policy : string)
         (docs : option (dict string)) (self : Tfidf) (text : string)
         (q : list R) (key : string) (verbose : bool),
  Tfidf_init sp policy docs = inr self ->
  create_word_vector self text = inr q ->
  In (key, q) (indexed_documents self) ->
  exists best l1 l2,
    search self text verbose = inr best /\
    indexed_documents self = l1 ++ (best, q) :: l2 /\
    forall key' v', In (key', v') l1 -> v' <> q.
Proof.
  intros N sp policy docs self text q key verbose Hinit Hq Hin.
  assert (Hlen : forall kv, In kv (indexed_documents self) ->
                   length (snd kv) = length q).
  { intros [k v] Hkv. simpl.
    rewrite (stored_vector_lengths _ _ _ Hinit _ _ Hkv).
    symmetry. apply (create_word_vector_length _ _ Hq). }
  destruct (@scan_minimum q (indexed_documents self) no_document_found
              100%R Hlen)
    as (best & d & Hscan & _ & Hmin & Hcase).
  pose proof (Hmin key q Hin) as Hd. rewrite euclidean_same in Hd.
  destruct Hcase as [[_ ->] | (l1 & v & l2 & E & Hv & _ & Hl1)]; [lra |].
  pose proof (euclidean_nonneg v q) as Hpos.
  assert (Hd0 : d = 0%R) by lra.
  assert (Evq : v = q).
  { apply euclidean_zero; [| rewrite Hv; exact Hd0].
    apply (Hlen (best, v)). rewrite E. apply in_or_app. right. left.
    reflexivity. }
  subst v. exists best, l1, l2. split.
  - assert (Hs : search_scan self text = inr (best, d))
      by (unfold search_scan; rewrite Hq; exact Hscan).
    unfold search. rewrite Hs. reflexivity.
  - split; [exact E |].
    intros key' v' Hin' Heq. subst v'.
    pose proof (Hl1 key' q Hin') as Hlt.
    rewrite euclidean_same in Hlt. lra.
Qed.

Lemma search_finds_stored_vector_witness :
  let q := [0; ln (8 / 2) * (1 / 2); 0; ln (8 / 1) * (1 / 2); 0; 0]%R in
  Tfidf_init (N := Toy.normalizer) Toy.indexed_spider "same" None
  = inr Toy.indexed_tfidf /\
  create_word_vector (N := Toy.normalizer) Toy.indexed_tfidf "the dog ran"
  = inr q /\
  In ("doc2"%string, q) (indexed_documents Toy.indexed_tfidf) /\
  exists best,
    search (N := Toy.normalizer) Toy.indexed_tfidf "the dog ran" true
    = inr best /\
    In (best, q) (indexed_documents Toy.indexed_tfidf).
Proof.
  intros q.
  assert (Hq : create_word_vector (N := Toy.normalizer) Toy.indexed_tfidf
                 "the dog ran" = inr q) by reflexivity.
  assert (Hin : In ("doc2"%string, q)
                  (indexed_documents Toy.indexed_tfidf))
    by (right; left; reflexivity).
  split; [exact indexed_tfidf_built |]. split; [exact Hq |].
  split; [exact Hin |].
  destruct (@search_finds_stored_vector Toy.normalizer Toy.indexed_spider
              "same"%string None Toy.indexed_tfidf "the dog ran"%string q
              "doc2"%string true indexed_tfidf_built Hq Hin)
    as (best & l1 & l2 & Hsearch & E & _).
  exists best. split; [exact Hsearch |].
  rewrite E. apply in_or_app. right. left. reflexivity.
Defined.

(** ** Weights and recognized tokens *)

Lemma idf_loop_keys : forall term_index total_count words idf0 idf',
  foldM (idf_step term_index total_count) words idf0 = inr idf' ->
  forall w, Dict.get idf' w <> None ->
    In w words \/ Dict.get idf0 w <> None.
Proof.
  induction words as [| x words IH]; intros idf0 idf' H w Hw; simpl in H.
  - injection H as <-. right. assumption.
  - apply bind_inr in H. destruct H as (idf1 & H1 & H2).
    destruct (IH _ _ H2 w Hw) as [Hin | Hget].
    + left. right. assumption.
    + unfold idf_step in H1.
      apply bind_inr in H1. destruct H1 as (c & _ & H1).
      apply bind_inr in H1. destruct H1 as (q & _ & H1).
      apply bind_inr in H1. destruct H1 as (lg & _ & H1).
      injection H1 as <-. rewrite get_set in Hget.
      destruct (String.eqb_spec x w) as [-> | Hne].
      * left. left. reflexivity.
      * right. assumption.
Qed.

(** X14: in a [Tfidf] that [Tfidf.__init__] returned, [get_idf_for_token]
    returns a weight for every word of the vocabulary and raises [KeyError]
    for every other token. *)
Theorem get_idf_for_token_cases :
  forall {N : TextNormalizer} (sp : Spider) (policy : string)
         (docs : option (dict string)) (self : Tfidf),
  Tfidf_init sp policy docs = inr self ->
  forall token,
    (In token (word_vector self) ->
     exists x, get_idf_for_token self token = inr x) /\
    (~ In token (word_vector self) ->
     get_idf_for_token self token = inl KeyError).
Proof.
  intros N sp policy docs self H token.
  pose proof (Tfidf_init_inr _ _ _ H) as [_ Hcover].
  unfold Tfidf_init in H.
  apply bind_inr in H. destruct H as (s1 & H1 & H).
  apply bind_inr in H. destruct H as (c & _ & Hins).
  apply insert_documents_frame in Hins. destruct Hins as (_ & Eidf & Ewv).
  unfold init_term_frequency in H1.
  apply bind_inr in H1. destruct H1 as (idf' & Hloop & Hs1).
  injection Hs1 as <-. simpl in *.
  unfold get_idf_for_token. split.
  - intros Hin. destruct (Dict.get (idf self) token) as [x |] eqn:E.
    + exists x. reflexivity.
    + exfalso. apply (Hcover token Hin). assumption.
  - intros Hnotin. destruct (Dict.get (idf self) token) as [x |] eqn:E;
      [| reflexivity].
    exfalso. apply Hnotin. rewrite Ewv.
    destruct (idf_loop_keys _ _ _ _ Hloop token) as [Hin | Hget].
    + rewrite <- Eidf, E. discriminate.
    + assumption.
    + simpl in Hget. contradiction.
Qed.

Lemma get_idf_for_token_cases_witness :
  Tfidf_init (N := Toy.normalizer) Toy.indexed_spider "same" None
  = inr Toy.indexed_tfidf /\
  get_idf_for_token Toy.indexed_tfidf "bird" = inl KeyError /\
  exists x, get_idf_for_token Toy.indexed_tfidf "gpu" = inr x.
Proof.
  split; [exact indexed_tfidf_built |].
  pose proof (@get_idf_for_token_cases Toy.normalizer Toy.indexed_spider
                "same"%string None Toy.indexed_tfidf indexed_tfidf_built)
    as H.
  split.
  - apply (proj2 (H "bird"%string)). simpl. intuition discriminate.
  - apply (proj1 (H "gpu"%string)). simpl. tauto.
Defined.

(** X15: [get_token_for_vector] returns, in vocabulary order, the words
    whose coordinate is strictly positive: a word is returned exactly when
    some position holds it in the vocabulary and a positive number in the
    vector. *)
Theorem get_token_for_vector_positive :
  forall (self : Tfidf) (v : list R) (w : string),
  In w (get_token_for_vector self v) <->
  exists i x,
    nth_error (word_vector self) i = Some w /\
    nth_error v i = Some x /\ (0 < x)%R.
Proof.
  intros self v w. unfold get_token_for_vector.
  generalize (word_vector self) as wv. intros wv. revert v.
  induction wv as [| y wv IH]; intros v; simpl.
  - split; [intros [] |].
    intros (i & x & H & _). destruct i; discriminate.
  - destruct v as [| z v]; simpl.
    + split; [intros [] |].
      intros (i & x & _ & H & _). destruct i; discriminate.
    + destruct (Rlt_dec 0 z) as [Hz | Hz]; simpl.
      * rewrite IH. split.
        -- intros [<- | (i & x & H1 & H2 & H3)].
           ++ exists O, z. repeat split; assumption.
           ++ exists (S i), x. repeat split; assumption.
        -- intros ([| i] & x & H1 & H2 & H3); simpl in *.
           ++ left. congruence.
           ++ right. exists i, x. repeat split; assumption.
      * rewrite IH. split.
        -- intros (i & x & H1 & H2 & H3).
           exists (S i), x. repeat split; assumption.
        -- intros ([| i] & x & H1 & H2 & H3); simpl in *.
           ++ exfalso. apply Hz. congruence.
           ++ exists i, x. repeat split; assumption.
Qed.

(** ** The summary string *)

Lemma append_assoc : forall a b c : string,
  ((a ++ b) ++ c = a ++ (b ++ c))%string.
Proof.
  induction a as [| ch a IH]; intros b c; simpl.
  - reflexivity.
  - rewrite IH. reflexivity.
Qed.

Lemma append_empty_r : forall a : string, (a ++ "" = a)%string.
Proof.
  induction a as [| ch a IH]; simpl; [reflexivity |].
  rewrite IH. reflexivity.
Qed.

Lemma length_append : forall a b : string,
  String.length (a ++ b) = (String.length a + String.length b)%nat.
Proof.
  induction a as [| ch a IH]; intros b; simpl.
  - reflexivity.
  - rewrite IH. reflexivity.
Qed.

Lemma substring_prefix : forall a b : string,
  String.substring 0 (String.length a) (a ++ b) = a.
Proof.
  induction a as [| ch a IH]; intros b; simpl.
  - destruct b; reflexivity.
  - rewrite IH. reflexivity.
Qed.

Lemma drop_last_two_append : forall a : string,
  drop_last_two (a ++ ", ") = a.
Proof.
  intros a. unfold drop_last_two. rewrite length_append. simpl.
  replace (String.length a + 2 - 2)%nat with (String.length a) by lia.
  apply substring_prefix.
Qed.

Lemma names_loop : forall (names : list string) (acc : string),
  names <> [] ->
  fold_left (fun document_names document_name =>
               (document_names ++ document_name ++ ", ")%string)
    names acc
  = (acc ++ String.concat ", " names ++ ", ")%string.
Proof.
  induction names as [| x names IH]; intros acc Hne.
  - contradiction.
  - destruct names as [| y names].
    + reflexivity.
    + assert (Hne' : y :: names <> []) by discriminate.
      pose proof (IH (acc ++ x ++ ", ")%string Hne') as H.
      cbn [fold_left] in H |- *. rewrite H.
      cbn [String.concat]. rewrite !append_assoc. reflexivity.
Qed.

(** X16: [str(tfidf)] is the identifiers of the indexed documents in store
    order, separated by ', ', and the empty string for an empty store. *)
Theorem Tfidf_str_joins_names : forall self : Tfidf,
  Tfidf_str self
  = String.concat ", " (Dict.keys (indexed_documents self)).
Proof.
  intros self. unfold Tfidf_str.
  destruct (Dict.keys (indexed_documents self)) as [| x names] eqn:E.
  - reflexivity.
  - rewrite names_loop by discriminate.
    change (""%string ++ String.concat ", " (x :: names) ++ ", ")%string
      with (String.concat ", " (x :: names) ++ ", ")%string.
    apply drop_last_two_append.
Qed.

(** ** Crawling *)

Section CrawlLemmas.
Context {F : FileSystem}.

Lemma for_each_app : forall (A S : Type) (body : S -> A -> Flow S)
    (l1 l2 : list A) (s : S),
  for_each body (l1 ++ l2) s =
  match for_each body l1 s with
  | Continue s' => for_each body l2 s'
  | Return s' => Return s'
  end.
Proof.
  induction l1 as [| x l1 IH]; intros l2 s; simpl.
  - reflexivity.
  - destruct (body s x); [apply IH | reflexivity].
Qed.

Lemma crawl_files_paths : forall self limit root files st,
  for_each (crawl_file self limit root) files st =
  for_each (crawl_path self limit)
    (map (os_path_join root)
       (filter (fun file =>
                  str_endswith file ("." ++ file_type self)%string)
          files))
    st.
Proof.
  intros self limit root files. unfold crawl_file, crawl_path.
  remember ("." ++ file_type self)%string as suffix eqn:Esuffix.
  clear Esuffix.
  induction files as [| file files IH]; intros st; simpl.
  - reflexivity.
  - destruct (str_endswith file suffix); simpl; [| apply IH].
    destruct limit as [n |];
      [destruct (n <=? snd st + 1)%Z |]; try apply IH; reflexivity.
Qed.

Lemma crawl_walk_paths :
  forall self limit (walk : list (string * list string * list string)) st,
  for_each
    (fun st triple =>
       for_each (crawl_file self limit (fst (fst triple))) (snd triple) st)
    walk st =
  for_each (crawl_path self limit)
    (flat_map
       (fun triple =>
          map (os_path_join (fst (fst triple)))
            (filter (fun file =>
                       str_endswith file ("." ++ file_type self)%string)
               (snd triple)))
       walk)
    st.
Proof.
  induction walk as [| triple walk IH]; intros st; simpl.
  - reflexivity.
  - rewrite for_each_app, crawl_files_paths.
    destruct (for_each (crawl_path self limit) _ st);
      [apply IH | reflexivity].
Qed.

Lemma crawl_paths_limit : forall self limit paths d c,
  fst (flow_state (for_each (crawl_path self limit) paths (d, c))) =
  fold_left (fun content p => Dict.set content p (parse self p))
    (match limit with
     | None => paths
     | Some n => firstn (Z.to_nat (Z.max 1 (n - c))) paths
     end)
    d.
Proof.
  induction paths as [| p paths IH]; intros d c.
  - destruct limit; [rewrite firstn_nil |]; reflexivity.
  - cbn [for_each]. unfold crawl_path at 1. cbn [fst snd].
    destruct limit as [n |].
    + destruct (Z.leb_spec n (c + 1)) as [Hle | Hgt].
      * replace (Z.to_nat (Z.max 1 (n - c))) with 1%nat by lia.
        reflexivity.
      * rewrite (IH _ (c + 1)%Z).
        replace (Z.to_nat (Z.max 1 (n - c)))
          with (S (Z.to_nat (Z.max 1 (n - (c + 1))))) by lia.
        reflexivity.
    + rewrite (IH _ (c + 1)%Z). reflexivity.
Qed.

End CrawlLemmas.

(** X17: [crawl] writes into [self.content], in walk order, what [parse]
    returns for the files under the corpus folder whose name ends in
    '.' + file_type, a file that cannot be read included (with [None]).
    Without a limit it takes all of them; with [limit = n] it stops after
    the first [max(1, n)] of them, so a limit of 0 or below still reads one
    file. *)
Theorem crawl_reads_up_to_limit :
  forall {F : FileSystem} (self : Spider) (limit : option Z)
         (content : dict (option string)),
  crawl self limit content =
  fold_left (fun content p => Dict.set content p (parse self p))
    (match limit with
     | None => wanted_paths self
     | Some n => firstn (Z.to_nat (Z.max 1 n)) (wanted_paths self)
     end)
    content.
Proof.
  intros F self limit content. unfold crawl, wanted_paths.
  rewrite crawl_walk_paths, crawl_paths_limit.
  destruct limit as [n |]; [| reflexivity].
  rewrite Z.sub_0_r. reflexivity.
Qed.

Lemma paragraphs_loop : forall (paragraphs : list (option string))
    (acc : string),
  fold_left
    (fun content p =>
       match p with
       | Some text =>
           if (0 <? String.length text)%nat then (content ++ text)%string
           else content
       | None => content
       end)
    paragraphs acc
  = (acc ++ String.concat "" (paragraph_texts paragraphs))%string.
Proof.
  assert (Hcat : forall x l,
            String.concat "" (x :: l) = (x ++ String.concat "" l)%string).
  { intros x [| y l]; simpl; [rewrite append_empty_r |]; reflexivity. }
  induction paragraphs as [| p paragraphs IH]; intros acc.
  - simpl. rewrite append_empty_r. reflexivity.
  - cbn [fold_left]. rewrite IH. destruct p as [text |].
    + change (paragraph_texts (Some text :: paragraphs))
        with (text :: paragraph_texts paragraphs).
      rewrite Hcat.
      destruct text as [| ch text]; simpl; [reflexivity |].
      rewrite append_assoc. reflexivity.
    + reflexivity.
Qed.

(** X18: [parse] returns [None] when the file cannot be read or, for
    'html', cannot be parsed; for 'html' it returns the concatenation of the
    texts of all paragraphs (skipping empty ones changes nothing); for any
    other file type it returns the text of the file unchanged. *)
Theorem parse_returns_text :
  forall {F : FileSystem} (self : Spider) (file_path : string),
  parse self file_path =
  match read_text file_path with
  | None => None
  | Some data =>
      if String.eqb (file_type self) "html" then
        match find_all_p data with
        | None => None
        | Some paragraphs =>
            Some (String.concat "" (paragraph_texts paragraphs))
        end
      else Some data
  end.
Proof.
  intros F self file_path. unfold parse.
  destruct (read_text file_path) as [data |]; [| reflexivity].
  destruct (String.eqb (file_type self) "html"); [| reflexivity].
  destruct (find_all_p data) as [paragraphs |]; [| reflexivity].
  rewrite paragraphs_loop. reflexivity.
Qed.

(** ** The vocabulary of a constructed [Tfidf] *)

(** X19: a [Tfidf] that [Tfidf.__init__] returned over a well-formed term
    index keeps the spider it was given, has one vocabulary word per term
    of the index, without duplicates, in the order of
    [get_index_list(sort=True)] (non-increasing count), and a weight for
    every word. *)
Theorem vocabulary_of_constructed_tfidf :
  forall {N : TextNormalizer} (sp : Spider) (policy : string)
         (docs : option (dict string)) (self : Tfidf),
  Dict.wf (term_index sp) ->
  Tfidf_init sp policy docs = inr self ->
  spider self = sp /\
  word_vector self = map snd (get_index_list sp true) /\
  NoDup (word_vector self) /\
  length (word_vector self) = length (term_index sp) /\
  weights_cover self.
Proof.
  intros N sp policy docs self Hwf H.
  pose proof (Tfidf_init_inr _ _ _ H) as [Hsp Hcover].
  unfold Tfidf_init in H.
  apply bind_inr in H. destruct H as (s1 & H1 & H).
  apply bind_inr in H. destruct H as (c & _ & Hins).
  apply insert_documents_frame in Hins. destruct Hins as (_ & _ & Ewv).
  unfold init_term_frequency in H1.
  apply bind_inr in H1. destruct H1 as (idf' & _ & Hs1).
  injection Hs1 as <-. cbn [word_vector spider] in Ewv.
  destruct (sorted_dictionary _ Hwf) as (Hwfs & Hperm & _ & _).
  assert (Hkeys : word_vector self
                  = Dict.keys (get_index_dictionary sp true))
    by exact Ewv.
  split; [exact Hsp |]. split.
  - rewrite Hkeys. unfold get_index_list, Dict.items, Dict.keys.
    rewrite map_map. reflexivity.
  - rewrite Hkeys. split; [exact Hwfs |]. split; [| exact Hcover].
    rewrite (Permutation_length Hperm). unfold Dict.keys.
    apply length_map.
Qed.

Lemma vocabulary_of_constructed_tfidf_witness :
  Dict.wf (term_index Toy.indexed_spider) /\
  Tfidf_init (N := Toy.normalizer) Toy.indexed_spider "same" None
  = inr Toy.indexed_tfidf /\
  NoDup (word_vector Toy.indexed_tfidf) /\
  length (word_vector Toy.indexed_tfidf) = 6%nat.
Proof.
  assert (Hwf : Dict.wf (term_index Toy.indexed_spider))
    by (apply wfb_sound; reflexivity).
  split; [exact Hwf |]. split; [exact indexed_tfidf_built |].
  destruct (@vocabulary_of_constructed_tfidf Toy.normalizer
              Toy.indexed_spider "same"%string None Toy.indexed_tfidf Hwf
              indexed_tfidf_built)
    as (_ & _ & Hnd & Hlen & _).
  split; [exact Hnd | exact Hlen].
Defined.

(** X20: with exactly one stored document whose vector has the length of
    the query vector, [search] returns that document's identifier when its
    Euclidean distance to the query vector is below 100, and
    'no document found' when the distance is 100 or more. *)
Theorem search_single_document :
  forall {N : TextNormalizer} (self : Tfidf) (text : string)
         (verbose : bool) (q : list R) (key : string) (v : list R),
  indexed_documents self = [(key, v)] ->
  create_word_vector self text = inr q ->
  length v = length q ->
  ((euclidean v q < 100)%R -> search self text verbose = inr key) /\
  ((100 <= euclidean v q)%R ->
   search self text verbose = inr no_document_found).
Proof.
  intros N self text verbose q key v Hstore Hq Hlen.
  unfold search, search_scan. rewrite Hq, Hstore.
  cbn [bind Dict.items foldM]. unfold search_step. cbn [snd fst].
  rewrite (np_sub_same_length _ _ Hlen). cbn [bind].
  fold (euclidean v q).
  destruct (Rlt_dec (euclidean v q) 100) as [Hlt | Hge].
  - split; [intros _; reflexivity | intros H; lra].
  - split; [intros H; contradiction | intros _; reflexivity].
Qed.

Lemma search_single_document_witness :
  let v := [0; ln (IZR (10 ^ 50 + 1) / 1) * (1 / 1)]%R in
  indexed_documents Toy.far_tfidf = [("doc"%string, v)] /\
  create_word_vector (N := Toy.normalizer) Toy.far_tfidf "zz"
  = inr [0; 0]%R /\
  (100 <= euclidean v [0; 0])%R /\
  search (N := Toy.normalizer) Toy.far_tfidf "zz" false
  = inr no_document_found.
Proof.
  intros v.
  split; [reflexivity |]. split; [exact far_query |].
  split; [exact far_distance |].
  apply (proj2 (@search_single_document Toy.normalizer Toy.far_tfidf
                  "zz"%string false [0; 0]%R "doc"%string v
                  eq_refl far_query eq_refl)).
  exact far_distance.
Defined.

(** X21: when the spider that [create_word_vector] builds for the
    language has a stemmer (the language is 'german' or 'english' and has a
    stop list), a text none of whose folded terms is in the vocabulary is
    vectorized to the zero vector of the vocabulary's length: terms outside
    the vocabulary contribute nothing and raise nothing. *)
Theorem create_word_vector_unknown_terms :
  forall {N : TextNormalizer} (self : Tfidf) (text : string)
         (sp0 : Spider),
  Spider_init "data" "txt" (language (spider self)) = inr sp0 ->
  stemmer sp0 <> None ->
  (forall t, In t (folded_terms sp0 text) ->
     ~ In t (word_vector self)) ->
  create_word_vector self text
  = inr (np_zeros (length (word_vector self))).
Proof.
  intros N self text sp0 H0 Hst Hout.
  destruct (stemmer sp0) as [s |] eqn:Es; [clear Hst | contradiction].
  assert (H1 : exists sp1, add_new_token sp0 text 1%Z = inr sp1).
  { unfold add_new_token. rewrite Es.
    destruct (add_tokens_total (stopwords sp0) s 1%Z
                (word_tokenize text (language sp0)) (term_index sp0))
      as (ti & E).
    rewrite E. simpl. eexists. reflexivity. }
  destruct H1 as (sp1 & H1).
  destruct (Spider_init_inr _ _ _ H0) as (_ & Hti & _ & _).
  pose proof (add_new_token_inr _ _ _ H1) as [_ Hfold].
  assert (Hkeys : forall t, In t (Dict.keys (term_index sp1)) ->
                    ~ In t (word_vector self)).
  { intros t Ht. apply Hout.
    destruct (add_tokens_keys _ _ _ _ _ Hfold t Ht) as [Hin | Hin].
    - rewrite Hti in Hin. contradiction.
    - exact Hin. }
  unfold create_word_vector. rewrite H0. cbn [bind]. rewrite H1.
  cbn [bind]. unfold get_index_dictionary.
  generalize (np_zeros (length (word_vector self))) as zeros.
  revert Hkeys.
  generalize (Dict.keys (term_index sp1)) as tokens.
  induction tokens as [| t tokens IH]; intros Hkeys zeros;
    [reflexivity |].
  cbn [foldM]. unfold vector_step at 1.
  assert (E : str_in t (word_vector self) = false).
  { destruct (str_in t (word_vector self)) eqn:E; [| reflexivity].
    exfalso. apply (Hkeys t); [left; reflexivity |].
    apply str_in_In. assumption. }
  rewrite E. cbn [bind ret]. apply IH.
  intros t' Ht'. apply Hkeys. right. assumption.
Qed.

Lemma create_word_vector_unknown_terms_witness :
  Spider_init (N := Toy.normalizer) "data" "txt"
    (language (spider Toy.indexed_tfidf)) = inr Toy.empty_spider /\
  folded_terms (N := Toy.normalizer) Toy.empty_spider "a bird sings"
  = ["bird"; "sings"]%string /\
  create_word_vector (N := Toy.normalizer) Toy.indexed_tfidf "a bird sings"
  = inr (np_zeros 6).
Proof.
  split; [reflexivity |]. split; [reflexivity |].
  apply (@create_word_vector_unknown_terms Toy.normalizer
           Toy.indexed_tfidf "a bird sings"%string Toy.empty_spider
           eq_refl).
  - discriminate.
  - intros t [<- | [<- | []]]; simpl; intuition discriminate.
Defined.

(** On the toy folder: without a limit the three text files are entered,
    the unreadable one with [None]; with [limit=0] one file is read all the
    same; as 'html' the page gives the text of its paragraphs. *)
Lemma crawl_toy_folder :
  crawl (F := ToyFS.files) Toy.empty_spider None []
  = [("data/a.txt", Some "the cat sat"); ("data/c.txt", None);
     ("data/sub/d.txt", Some "the dog ran")]%string /\
  crawl (F := ToyFS.files) Toy.empty_spider (Some 0%Z) []
  = [("data/a.txt", Some "the cat sat")]%string /\
  crawl (F := ToyFS.files) Toy.empty_spider (Some 2%Z) []
  = [("data/a.txt", Some "the cat sat"); ("data/c.txt", None)]%string /\
  parse (F := ToyFS.files)
    (mkSpider "data" "html" [] [] [] "english" (Some EnglishStemmer))
    "data/b.html"
  = Some "the cat"%string.
Proof. repeat split; reflexivity. Qed.
